(** * ExpressionEval: tokenizer, shunting-yard parser and RPN evaluator

    A shallow embedding of [common/src/tokenizer.cpp], [common/src/parser.cpp]
    and [common/src/RPNEvaluator.cpp], with the operator hierarchy of
    [common/inc/ee/operator.hpp].

    Conventions of the embedding:
    - [Integer::value_type] (an unbounded signed integer) is [Z];
    - [Real::value_type] is a type parameter with the operations the code
      calls on it ([RealHost]);
    - a [Token::pointer_type] to a [Variable] is a handle into a heap of
      variable slots, so that every copy of the pointer sees the same slot;
    - a C++ exception is a value of [exception]; a function that may throw
      returns an [outcome]. *)

From Stdlib Require Import ZArith String Ascii List Bool Lia Reals.
From stdpp Require Import base option list gmap strings.

Local Open Scope string_scope.
Local Open Scope list_scope.
Local Open Scope Z_scope.

(** ** Exceptions *)

Inductive exception : Type :=
  | runtime_error (what : string)
      (* std::runtime_error, thrown by the parser and the evaluator *)
  | bad_variant_access
      (* std::bad_variant_access, thrown by std::get on the wrong alternative *)
  | overflow_error (what : string)
      (* thrown by the unbounded integer type on a division by zero *)
  | XTokenizer (location : nat) (what : string)
  | XBadCharacter (location : nat).

Inductive outcome (A : Type) : Type :=
  | Returns (a : A)
  | Throws (e : exception).
Arguments Returns {A} a.
Arguments Throws {A} e.

#[global] Instance outcome_ret : MRet outcome := fun A a => Returns a.
#[global] Instance outcome_fmap : FMap outcome := fun A B f m =>
  match m with
  | Returns a => Returns (f a)
  | Throws e => Throws e
  end.
#[global] Instance outcome_bind : MBind outcome := fun A B f m =>
  match m with
  | Returns a => f a
  | Throws e => Throws e
  end.

(** ** Token model *)

(** operator.hpp: [RAssocOperator] is [Power], [Assignment]; the others are
    [LAssocOperator]s. *)
Inductive BinaryOperator : Type :=
  | Power | Assignment
  | Addition | And | Division | Equality | Greater | GreaterEqual
  | Inequality | Less | LessEqual | Multiplication | Modulus
  | Nand | Nor | Or | Subtraction | Xor | Xnor.

#[global] Instance BinaryOperator_eq_dec : EqDecision BinaryOperator.
Proof. solve_decision. Defined.

Inductive PostfixOperator : Type := Factorial.

(** operator.hpp declares [class PostfixOperator : public UnaryOperator], so a
    postfix operator is a unary operator. *)
Inductive UnaryOperator : Type :=
  | Identity | Negation | Not
  | Postfix (p : PostfixOperator).

Inductive Operator : Type :=
  | Binary (b : BinaryOperator)
  | Unary (u : UnaryOperator).

(** Modelled from the spec: the function classes of function.hpp and the
    pseudo-operations of pseudo_operation.hpp, which are tokens but neither
    operands nor operations.  The evaluator tests the same functions under
    [is<OneArgFunction>] and [is<TwoArgFunction>]. *)
Inductive OneArgFunction : Type :=
  | Abs | Arccos | Arcsin | Arctan | Ceil | Cos | Exp | Floor
  | Lb | Ln | Log | Result | Sin | Sqrt | Tan.

Inductive TwoArgFunction : Type := Arctan2 | Max | Min | Pow.

Inductive Function : Type :=
  | OneArg (f : OneArgFunction)
  | TwoArg (f : TwoArgFunction).

Inductive Operation : Type :=
  | Op (o : Operator)
  | Fn (f : Function).

Inductive PseudoOperation : Type :=
  | LeftParenthesis | RightParenthesis | ArgumentSeparator.

(** The address of a [Variable] object. *)
Definition handle : Type := nat.

(** The operations the sources apply to a [Real::value_type]; real.hpp is
    not part of the sources at hand, so the type and its arithmetic are taken
    as parameters. *)
Class RealHost (real : Type) : Type := {
  real_of_string : string -> real;   (* Real::value_type(digits) *)
  real_of_integer : Z -> real;       (* Real::value_type(Integer::value_type) *)
  real_of_bool : bool -> real;       (* Real::value_type(bool) *)
  real_pi : real;                    (* value_of<Real> of a Pi token *)
  real_e : real;                     (* value_of<Real> of an E token *)
  real_neg : real -> real;
  real_add : real -> real -> real;
  real_sub : real -> real -> real;
  real_mul : real -> real -> real;
  real_div : real -> real -> real;
  real_eqb : real -> real -> bool;   (* == *)
  real_neb : real -> real -> bool;   (* != *)
  real_ltb : real -> real -> bool;   (* < *)
  real_leb : real -> real -> bool;   (* <= *)
  real_gtb : real -> real -> bool;   (* > *)
  real_geb : real -> real -> bool;   (* >= *)
  real_pow : real -> real -> real;
  real_atan2 : real -> real -> real;
  real_abs : real -> real;
  real_sin : real -> real;
  real_cos : real -> real;
  real_tan : real -> real;
  real_sqrt : real -> real;
  real_log : real -> real;
  real_log2 : real -> real;
  real_log10 : real -> real;
  real_exp : real -> real;
  real_floor : real -> real;
  real_ceil : real -> real;
  real_acos : real -> real;
  real_asin : real -> real;
  real_atan : real -> real
}.

Section WithReal.

Context {real : Type}.

(** Modelled from the spec: the operand classes of integer.hpp, real.hpp,
    boolean.hpp and variable.hpp.  [Pi] and [E] are real-valued operands,
    [True] and [False] boolean-valued operands; a [Variable] slot is empty or
    holds an operand that is never another [Variable]. *)
Inductive Constant : Type :=
  | Integer (z : Z)
  | Real (r : real)
  | Boolean (b : bool)
  | Pi | E
  | True_ | False_.

Inductive Operand : Type :=
  | Const (c : Constant)
  | Variable_ (h : handle).

Inductive Token : Type :=
  | TOperand (o : Operand)
  | TOperation (o : Operation)
  | TPseudo (p : PseudoOperation).

Definition TokenList : Type := list Token.
Definition OperandList : Type := list Operand.

(** [is<Kind>(token)]: the dynamic type of the token derives from [Kind]. *)
Definition is_Operand (t : Token) : bool :=
  match t with TOperand _ => true | _ => false end.
Definition is_Operation (t : Token) : bool :=
  match t with TOperation _ => true | _ => false end.
Definition is_Operator (t : Token) : bool :=
  match t with TOperation (Op _) => true | _ => false end.
Definition is_Function (t : Token) : bool :=
  match t with TOperation (Fn _) => true | _ => false end.
Definition is_BinaryOperator (t : Token) : bool :=
  match t with TOperation (Op (Binary _)) => true | _ => false end.
Definition is_UnaryOperator (t : Token) : bool :=
  match t with TOperation (Op (Unary _)) => true | _ => false end.
Definition is_PostfixOperator (t : Token) : bool :=
  match t with TOperation (Op (Unary (Postfix _))) => true | _ => false end.
Definition is_OneArgFunction (t : Token) : bool :=
  match t with TOperation (Fn (OneArg _)) => true | _ => false end.
Definition is_TwoArgFunction (t : Token) : bool :=
  match t with TOperation (Fn (TwoArg _)) => true | _ => false end.
Definition is_LeftParenthesis (t : Token) : bool :=
  match t with TPseudo LeftParenthesis => true | _ => false end.
Definition is_RightParenthesis (t : Token) : bool :=
  match t with TPseudo RightParenthesis => true | _ => false end.
Definition is_ArgumentSeparator (t : Token) : bool :=
  match t with TPseudo ArgumentSeparator => true | _ => false end.
Definition is_Variable (o : Operand) : bool :=
  match o with Variable_ _ => true | _ => false end.

End WithReal.
Arguments Constant : clear implicits.
Arguments Operand : clear implicits.
Arguments Token : clear implicits.
Arguments TokenList : clear implicits.
Arguments OperandList : clear implicits.

(** [make<Kind>()] for the operation and pseudo-operation kinds. *)
Abbreviation binop b := (TOperation (Op (Binary b))).
Abbreviation unop u := (TOperation (Op (Unary u))).
Abbreviation postfix p := (TOperation (Op (Unary (Postfix p)))).
Abbreviation fn1 f := (TOperation (Fn (OneArg f))).
Abbreviation fn2 f := (TOperation (Fn (TwoArg f))).
Abbreviation const c := (TOperand (Const c)).
Abbreviation var h := (TOperand (Variable_ h)).

(** ** The evaluator (RPNEvaluator.cpp) *)

Section Evaluator.

Context {real : Type} {host : RealHost real}.

(** [using Value = std::variant<Integer::value_type, Real::value_type, bool>] *)
Inductive Value : Type :=
  | VInteger (z : Z)
  | VReal (r : real)
  | VBoolean (b : bool).

(** The slots of the [Variable] objects: [heap !! h] is [Some None] for a
    variable whose [value()] is null and [Some (Some c)] after [set(c)]. *)
Definition Heap : Type := list (option (Constant real)).

(** [var->value()]; null is [None]. *)
Definition Variable_value (heap : Heap) (h : handle) : option (Constant real) :=
  mjoin (heap !! h).

(** [var->set(c)] *)
Definition Variable_set (heap : Heap) (h : handle) (c : Constant real) : Heap :=
  <[h := Some c]> heap.

(** [value_of<Integer>], [value_of<Real>], [value_of<Boolean>] behind the
    three [is<...>] tests of [to_value]. *)
Definition value_of (c : Constant real) : Value :=
  match c with
  | Integer z => VInteger z
  | Real r => VReal r
  | Boolean b => VBoolean b
  | Pi => VReal real_pi
  | E => VReal real_e
  | True_ => VBoolean true
  | False_ => VBoolean false
  end.

Definition not_initialized : exception :=
  runtime_error "Error: variable not initialized".
Definition unsupported_operand : exception :=
  runtime_error "Error: unsupported operand".
Definition insufficient_operands : exception :=
  runtime_error "Error: insufficient operands".
Definition too_many_operands : exception :=
  runtime_error "Error: too many operands".
Definition assignment_to_non_variable : exception :=
  runtime_error "Error: assignment to a non-variable.".

(** lines 56-67.  The recursive call [to_value(var->value())] is on the
    operand in the slot, which is never a variable; the final throw of the
    source is for an operand of no known kind, which the operand type has
    not. *)
Definition to_value (heap : Heap) (operand : Operand real) : outcome Value :=
  match operand with
  | Const c => Returns (value_of c)
  | Variable_ h =>
      match Variable_value heap h with
      | None => Throws not_initialized
      | Some c => Returns (value_of c)
      end
  end.

(** lines 69-75 *)
Definition make_operand_from_value (value : Value) : Constant real :=
  match value with
  | VInteger z => Integer z
  | VReal r => Real r
  | VBoolean b => Boolean b
  end.

Definition holds_Real (v : Value) : bool :=
  match v with VReal _ => true | _ => false end.
Definition holds_Integer (v : Value) : bool :=
  match v with VInteger _ => true | _ => false end.
Definition holds_bool (v : Value) : bool :=
  match v with VBoolean _ => true | _ => false end.

(** [std::get<T>(v)] throws [std::bad_variant_access] when [v] holds another
    alternative. *)
Definition get_Integer (v : Value) : outcome Z :=
  match v with VInteger z => Returns z | _ => Throws bad_variant_access end.
Definition get_Real (v : Value) : outcome real :=
  match v with VReal r => Returns r | _ => Throws bad_variant_access end.
Definition get_bool (v : Value) : outcome bool :=
  match v with VBoolean b => Returns b | _ => Throws bad_variant_access end.

(** lines 79-83 *)
Definition to_real (v : Value) : real :=
  match v with
  | VReal r => r
  | VInteger z => real_of_integer z
  | VBoolean b => real_of_bool b
  end.

(** lines 77-87 *)
Definition promote (lhs rhs : Value) : Value * Value :=
  if holds_Real lhs || holds_Real rhs
  then (VReal (to_real lhs), VReal (to_real rhs))
  else (lhs, rhs).

(** [lProm == rProm] and [lProm != rProm] on variants: the indices are
    compared first, then the held values. *)
Definition Value_eq (l r : Value) : bool :=
  match l, r with
  | VInteger a, VInteger b => a =? b
  | VReal a, VReal b => real_eqb a b
  | VBoolean a, VBoolean b => Bool.eqb a b
  | _, _ => false
  end.
Definition Value_ne (l r : Value) : bool :=
  match l, r with
  | VInteger a, VInteger b => negb (a =? b)
  | VReal a, VReal b => real_neb a b
  | VBoolean a, VBoolean b => negb (Bool.eqb a b)
  | _, _ => true
  end.

(** Modelled from the spec: the [/] and [%] of [Integer::value_type]
    (integer.hpp is not at hand): division truncates toward zero and the
    remainder has the sign of the dividend; a zero divisor raises the
    integer type's overflow error. *)
Definition Integer_div (a b : Z) : outcome Z :=
  if b =? 0 then Throws (overflow_error "Division by zero.")
  else Returns (Z.quot a b).
Definition Integer_mod (a b : Z) : outcome Z :=
  if b =? 0 then Throws (overflow_error "Division by zero.")
  else Returns (Z.rem a b).

(** lines 111-113: [for (i = 1; i <= ival; ++i) result *= i;] from
    [result = 1]. *)
Definition factorial_loop (ival : Z) : Z :=
  foldl (fun result i => result * i) 1 (seqZ 1 ival).

(** lines 211-213: [for (i = 0; i < exp; ++i) result *= base;] from
    [result = 1]. *)
Definition power_loop (base exp : Z) : Z :=
  foldl (fun result _ => result * base) 1 (seqZ 0 exp).

(** [get_real] of lines 262 and 294 *)
Definition get_real (val : Value) : outcome real :=
  if holds_Real val then get_Real val
  else z ← get_Integer val; Returns (real_of_integer z).

(** [std::max(a, b)] is [(a < b) ? b : a], [std::min(a, b)] is
    [(b < a) ? b : a]. *)
Definition std_max (a b : real) : real := if real_ltb a b then b else a.
Definition std_min (a b : real) : real := if real_ltb b a then b else a.

(** The arithmetic and relational operators of lines 173-247, on the
    promoted values: the real branch when [lProm] holds a real, the integer
    branch otherwise. *)
Definition arith (fr : real -> real -> real) (fi : Z -> Z -> outcome Z)
    (lProm rProm : Value) : outcome (Constant real) :=
  if holds_Real lProm
  then l ← get_Real lProm; r ← get_Real rProm; Returns (Real (fr l r))
  else l ← get_Integer lProm; r ← get_Integer rProm;
       z ← fi l r; Returns (Integer z).

Definition relational (fr : real -> real -> bool) (fi : Z -> Z -> bool)
    (lProm rProm : Value) : outcome (Constant real) :=
  if holds_Real lProm
  then l ← get_Real lProm; r ← get_Real rProm; Returns (Boolean (fr l r))
  else l ← get_Integer lProm; r ← get_Integer rProm;
       Returns (Boolean (fi l r)).

(** [a && b] and [a || b] evaluate [b] only when [a] does not decide the
    result. *)
Definition and_then (a b : outcome bool) : outcome bool :=
  x ← a; if (x : bool) then b else Returns false.
Definition or_else (a b : outcome bool) : outcome bool :=
  x ← a; if (x : bool) then Returns true else b.

(** lines 150-254: a binary operator applied to the two popped operands,
    [stack] being what is left of the operand stack.  Both operands are
    dereferenced (the right one first) before the operator is looked at. *)
Definition eval_BinaryOperator (b : BinaryOperator)
    (lhsOp rhsOp : Operand real) (stack : OperandList real) (heap : Heap)
    : outcome (OperandList real * Heap) :=
  rhs ← to_value heap rhsOp;
  lhs ← to_value heap lhsOp;
  let '(lProm, rProm) := promote lhs rhs in
  let push (r : outcome (Constant real)) :=
    c ← r; Returns (Const c :: stack, heap) in
  let make_bool (r : outcome bool) := push (x ← r; Returns (Boolean x)) in
  match b with
  | Assignment =>
      match lhsOp with
      | Variable_ h =>
          Returns (Variable_ h :: stack,
                   Variable_set heap h (make_operand_from_value rhs))
      | Const _ => Throws assignment_to_non_variable
      end
  | Addition => push (arith real_add (fun x y => Returns (x + y)) lProm rProm)
  | Subtraction =>
      push (arith real_sub (fun x y => Returns (x - y)) lProm rProm)
  | Multiplication =>
      push (arith real_mul (fun x y => Returns (x * y)) lProm rProm)
  | Division => push (arith real_div Integer_div lProm rProm)
  | Modulus =>
      push (l ← get_Integer lProm; r ← get_Integer rProm;
            z ← Integer_mod l r; Returns (Integer z))
  | Power =>
      push (arith real_pow (fun base exp => Returns (power_loop base exp))
              lProm rProm)
  | Equality => make_bool (Returns (Value_eq lProm rProm))
  | Inequality => make_bool (Returns (Value_ne lProm rProm))
  | Less => push (relational real_ltb Z.ltb lProm rProm)
  | LessEqual => push (relational real_leb Z.leb lProm rProm)
  | Greater => push (relational real_gtb Z.gtb lProm rProm)
  | GreaterEqual => push (relational real_geb Z.geb lProm rProm)
  | And => make_bool (and_then (get_bool lhs) (get_bool rhs))
  | Or => make_bool (or_else (get_bool lhs) (get_bool rhs))
  | Xor => make_bool (x ← get_bool lhs; y ← get_bool rhs; Returns (xorb x y))
  | Nand => make_bool (negb <$> and_then (get_bool lhs) (get_bool rhs))
  | Nor => make_bool (negb <$> or_else (get_bool lhs) (get_bool rhs))
  | Xnor =>
      make_bool (x ← get_bool lhs; y ← get_bool rhs; Returns (Bool.eqb x y))
  end.

(** lines 100-116: [Factorial], on the popped operand. *)
Definition eval_PostfixOperator (p : PostfixOperator)
    (operand : Operand real) (stack : OperandList real) (heap : Heap)
    : outcome (OperandList real * Heap) :=
  val ← to_value heap operand;
  match p, val with
  | Factorial, VInteger ival =>
      if ival <? 0 then Throws unsupported_operand
      else Returns (Const (Integer (factorial_loop ival)) :: stack, heap)
  | Factorial, _ => Throws unsupported_operand
  end.

(** lines 118-147: [Identity], [Negation] and [Not], on the popped operand;
    the operand is dereferenced before the operator is looked at.  A postfix
    operator never reaches this code, line 115 having continued; the block
    itself pushes nothing for a unary operator of another kind. *)
Definition eval_UnaryOperator (u : UnaryOperator)
    (operand : Operand real) (stack : OperandList real) (heap : Heap)
    : outcome (OperandList real * Heap) :=
  val ← to_value heap operand;
  match u with
  | Identity => Returns (operand :: stack, heap)
  | Negation =>
      match val with
      | VReal r => Returns (Const (Real (real_neg r)) :: stack, heap)
      | VInteger z => Returns (Const (Integer (- z)) :: stack, heap)
      | VBoolean _ => Throws unsupported_operand
      end
  | Not =>
      match val with
      | VBoolean b => Returns (Const (Boolean (negb b)) :: stack, heap)
      | _ => Throws unsupported_operand
      end
  | Postfix _ => Returns (stack, heap)
  end.

(** lines 257-285 *)
Definition eval_OneArgFunction (f : OneArgFunction)
    (arg : Operand real) (stack : OperandList real) (heap : Heap)
    : outcome (OperandList real * Heap) :=
  v ← to_value heap arg;
  let make_Real (g : real -> real) :=
    x ← get_real v; Returns (Const (Real (g x)) :: stack, heap) in
  match f with
  | Abs =>
      if holds_Real v
      then x ← get_Real v; Returns (Const (Real (real_abs x)) :: stack, heap)
      else z ← get_Integer v; Returns (Const (Integer (Z.abs z)) :: stack, heap)
  | Sin => make_Real real_sin
  | Cos => make_Real real_cos
  | Tan => make_Real real_tan
  | Sqrt => make_Real real_sqrt
  | Ln => make_Real real_log
  | Lb => make_Real real_log2
  | Log => make_Real real_log10
  | Exp => make_Real real_exp
  | Floor => make_Real real_floor
  | Ceil => make_Real real_ceil
  | Arccos => make_Real real_acos
  | Arcsin => make_Real real_asin
  | Arctan => make_Real real_atan
  | Result => Throws unsupported_operand
  end.

(** lines 287-300 *)
Definition eval_TwoArgFunction (f : TwoArgFunction)
    (lhsOp rhsOp : Operand real) (stack : OperandList real) (heap : Heap)
    : outcome (OperandList real * Heap) :=
  rhs ← to_value heap rhsOp;
  lhs ← to_value heap lhsOp;
  let make_Real (g : real -> real -> real) :=
    l ← get_real lhs; r ← get_real rhs;
    Returns (Const (Real (g l r)) :: stack, heap) in
  match f with
  | Arctan2 => make_Real real_atan2
  | Max => make_Real std_max
  | Min => make_Real std_min
  | Pow => make_Real real_pow
  end.

(** The body of the loop of lines 91-302: one token against the operand
    stack (its back is the head of the list) and the heap. *)
Definition eval_token (token : Token real)
    (stack : OperandList real) (heap : Heap)
    : outcome (OperandList real * Heap) :=
  match token with
  | TOperand o => Returns (o :: stack, heap)
  | TPseudo _ => Returns (stack, heap)
  | TOperation (Op (Unary u)) =>
      match stack with
      | operand :: stack' =>
          match u with
          | Postfix p => eval_PostfixOperator p operand stack' heap
          | _ => eval_UnaryOperator u operand stack' heap
          end
      | [] => Throws insufficient_operands
      end
  | TOperation (Op (Binary b)) =>
      match stack with
      | rhsOp :: lhsOp :: stack' => eval_BinaryOperator b lhsOp rhsOp stack' heap
      | _ => Throws insufficient_operands
      end
  | TOperation (Fn (OneArg f)) =>
      match stack with
      | arg :: stack' => eval_OneArgFunction f arg stack' heap
      | [] => Throws insufficient_operands
      end
  | TOperation (Fn (TwoArg f)) =>
      match stack with
      | rhsOp :: lhsOp :: stack' => eval_TwoArgFunction f lhsOp rhsOp stack' heap
      | _ => Throws insufficient_operands
      end
  end.

(** The loop of lines 91-302.  A throw leaves the heap as the tokens before
    it made it. *)
Fixpoint eval_loop (rpnExpression : TokenList real)
    (stack : OperandList real) (heap : Heap)
    : outcome (OperandList real) * Heap :=
  match rpnExpression with
  | [] => (Returns stack, heap)
  | token :: rest =>
      match eval_token token stack heap with
      | Returns (stack', heap') => eval_loop rest stack' heap'
      | Throws e => (Throws e, heap)
      end
  end.

(** [RPNEvaluator::evaluate]: the result (or the exception) and the heap it
    leaves. *)
Definition evaluate (rpnExpression : TokenList real) (heap : Heap)
    : outcome (Operand real) * Heap :=
  let '(r, heap') := eval_loop rpnExpression [] heap in
  (stack ← r;
   match stack with
   | [] => Throws insufficient_operands
   | [result] => Returns result
   | _ => Throws too_many_operands
   end, heap').

End Evaluator.

(** ** The tokenizer (tokenizer.cpp) *)

(** line 181: [enum class PrevCategory] *)
Module PrevCategory.
Inductive t : Type :=
  | Start | Operand | RightParenthesis | PostfixOp | Function | Other.
End PrevCategory.

Section Tokenizer.

Context {real : Type} {host : RealHost real}.

Local Open Scope nat_scope.

(** The character classes of <cctype>, in the C locale; a character
    outside the ASCII range is in none of them. *)
Definition isdigit (c : ascii) : bool :=
  let n := nat_of_ascii c in (48 <=? n) && (n <=? 57).
Definition isalpha (c : ascii) : bool :=
  let n := nat_of_ascii c in
  ((65 <=? n) && (n <=? 90)) || ((97 <=? n) && (n <=? 122)).
Definition isalnum (c : ascii) : bool := isalpha c || isdigit c.
Definition isspace (c : ascii) : bool :=
  let n := nat_of_ascii c in ((9 <=? n) && (n <=? 13)) || (n =? 32).

(** The scanning loops of the form "while not at the end and the current
    character satisfies p, append it and advance": the characters taken and
    the ones left. *)
Fixpoint span (p : ascii -> bool) (l : list ascii) : list ascii * list ascii :=
  match l with
  | c :: l' =>
      if p c then let '(taken, rest) := span p l' in (c :: taken, rest)
      else ([], l)
  | [] => ([], [])
  end.

(** The tokenizer object: its two dictionaries. *)
Record Tokenizer : Type := {
  keywords_m : gmap string (Token real);
  variables_m : gmap string (Token real)
}.

(** lines 77-107: every keyword with its spellings. *)
Definition keyword_table : list (list string * Token real) :=
  [ (["abs"; "Abs"; "ABS"], fn1 Abs);
    (["and"; "And"; "AND"], binop And);
    (["arccos"; "Arccos"; "ARCCOS"], fn1 Arccos);
    (["arcsin"; "Arcsin"; "ARCSIN"], fn1 Arcsin);
    (["arctan"; "Arctan"; "ARCTAN"], fn1 Arctan);
    (["arctan2"; "Arctan2"; "ARCTAN2"], fn2 Arctan2);
    (["ceil"; "Ceil"; "CEIL"], fn1 Ceil);
    (["cos"; "Cos"; "COS"], fn1 Cos);
    (["e"; "E"], const E);
    (["exp"; "Exp"; "EXP"], fn1 Exp);
    (["false"; "False"; "FALSE"], const False_);
    (["floor"; "Floor"; "FLOOR"], fn1 Floor);
    (["lb"; "Lb"; "LB"], fn1 Lb);
    (["ln"; "Ln"; "LN"], fn1 Ln);
    (["log"; "Log"; "LOG"], fn1 Log);
    (["max"; "Max"; "MAX"], fn2 Max);
    (["min"; "Min"; "MIN"], fn2 Min);
    (["mod"; "Mod"; "MOD"], binop Modulus);
    (["nand"; "Nand"; "NAND"], binop Nand);
    (["nor"; "Nor"; "NOR"], binop Nor);
    (["not"; "Not"; "NOT"], unop Not);
    (["or"; "Or"; "OR"], binop Or);
    (["pi"; "Pi"; "PI"], const Pi);
    (["pow"; "Pow"; "POW"], fn2 Pow);
    (["result"; "Result"; "RESULT"], fn1 Result);
    (["sin"; "Sin"; "SIN"], fn1 Sin);
    (["sqrt"; "Sqrt"; "SQRT"], fn1 Sqrt);
    (["tan"; "Tan"; "TAN"], fn1 Tan);
    (["true"; "True"; "TRUE"], const True_);
    (["xnor"; "Xnor"; "XNOR"], binop Xnor);
    (["xor"; "Xor"; "XOR"], binop Xor) ].

(** [Tokenizer::Tokenizer()] *)
Definition Tokenizer_new : Tokenizer :=
  {| keywords_m :=
       foldl (fun m '(spellings, token) =>
                foldl (fun m' k => <[k := token]> m') m spellings)
             ∅ keyword_table;
     variables_m := ∅ |}.

(** Modelled from the spec: [make<Variable>()] of variable.hpp, a new
    variable object whose slot is empty. *)
Definition make_Variable (heap : @Heap real) : Token real * @Heap real :=
  (var (length heap), heap ++ [None]).

(** lines 116-137.  [expr] starts at the current character, which is
    alphabetic; the result is the token, the characters consumed, and the
    tokenizer and heap after a possible registration. *)
Definition _get_identifier (self : Tokenizer) (heap : @Heap real)
    (expr : list ascii)
    : Token real * nat * list ascii * Tokenizer * @Heap real :=
  match expr with
  | [] => (const (Integer 0), 0, [], self, heap) (* excluded by the caller *)
  | c :: cs =>
      let '(more, rest) := span isalnum cs in
      let ident := string_of_list_ascii (c :: more) in
      let consumed := S (length more) in
      match keywords_m self !! ident with
      | Some token => (token, consumed, rest, self, heap)
      | None =>
          match variables_m self !! ident with
          | Some token => (token, consumed, rest, self, heap)
          | None =>
              let '(result, heap') := make_Variable heap in
              (result, consumed, rest,
               {| keywords_m := keywords_m self;
                  variables_m := <[ident := result]> (variables_m self) |},
               heap')
          end
      end
  end.

(** Modelled from the spec: [Integer::value_type(digits)], the decimal-string
    construction of the unbounded integer type (integer.hpp is not at
    hand). *)
Definition digit_value (c : ascii) : Z := Z.of_nat (nat_of_ascii c - 48).
Definition Integer_of_digits (digits : list ascii) : Z :=
  foldl (fun acc c => (10 * acc + digit_value c)%Z) 0%Z digits.

Definition bad_character_message : string :=
  "Tokenizer::Bad character in expression.".

(** lines 147-167.  [expr] starts at the current character, a digit, at
    offset [pos]; the result is the token, the characters consumed and the
    ones left. *)
Definition _get_number (pos : nat) (expr : list ascii)
    : outcome (Token real * nat * list ascii) :=
  let '(digits, rest) := span isdigit expr in
  match rest with
  | [] => Returns (const (Integer (Integer_of_digits digits)), length digits, rest)
  | c :: cs =>
      if negb (Ascii.eqb c ".")
      then Returns (const (Integer (Integer_of_digits digits)),
                    length digits, rest)
      else
        (* a real number *)
        match cs with
        | d :: _ =>
            if isdigit d then
              let '(fraction, rest') := span isdigit cs in
              Returns
                (const (Real (real_of_string
                   (string_of_list_ascii (digits ++ c :: fraction)))),
                 length digits + 1 + length fraction, rest')
            else Throws (XTokenizer (pos + length digits + 1)
                           bad_character_message)
        | [] => Throws (XTokenizer (pos + length digits + 1)
                          bad_character_message)
        end
  end.

(** lines 223-229: the digits of a binary literal, most significant first. *)
Definition binary_value (bits : list ascii) : Z :=
  foldl (fun value c =>
           let value := Z.shiftl value 1 in
           if Ascii.eqb c "1" then (value + 1)%Z else value)
        0%Z bits.
Definition is_bit (c : ascii) : bool := Ascii.eqb c "0" || Ascii.eqb c "1".

(** lines 182-194; a null pointer is [None]. *)
Definition classify_prev (token : option (Token real)) : PrevCategory.t :=
  match token with
  | None => PrevCategory.Start
  | Some token =>
      if is_Operand token then PrevCategory.Operand
      else if is_RightParenthesis token then PrevCategory.RightParenthesis
      else if is_PostfixOperator token then PrevCategory.PostfixOp
      else if is_Function token then PrevCategory.Function
      else PrevCategory.Other
  end.

(** The test of lines 281, 304 and 315. *)
Definition follows_expression (prev : PrevCategory.t) : bool :=
  match prev with
  | PrevCategory.Operand | PrevCategory.PostfixOp
  | PrevCategory.RightParenthesis => true
  | _ => false
  end.

(** The variables of [Tokenizer::tokenize] and what it can reach. *)
Record LexState : Type := {
  currentChar : nat;               (* currentChar - begin(expression) *)
  remaining : list ascii;          (* from currentChar to end(expression) *)
  prev : PrevCategory.t;
  tokenizedExpression : TokenList real;
  self : Tokenizer;
  heap : @Heap real
}.

(** What one turn of the [for(;;)] loop of line 205 does. *)
Inductive Step : Type :=
  | Break
  | Continue (st : LexState)
  | Raise (e : exception).

(** [tokenizedExpression.push_back(tkn); prev = classify_prev(tkn); continue;]
    with the current character moved to offset [pos], before [rest]. *)
Definition emit (st : LexState) (pos : nat) (rest : list ascii)
    (tkn : Token real) : Step :=
  Continue {| currentChar := pos; remaining := rest;
              prev := classify_prev (Some tkn);
              tokenizedExpression := tokenizedExpression st ++ [tkn];
              self := self st; heap := heap st |}.

(** [nextChar != end(expression) && *nextChar == symbol2] *)
Definition next_is (symbol2 : ascii) (cs : list ascii) : bool :=
  match cs with
  | c :: _ => Ascii.eqb c symbol2
  | [] => false
  end.

(** lines 198-203, [lookahead] at offset [pos] before [expr]. *)
Definition expect_function_paren (pos : nat) (expr : list ascii)
    : outcome unit :=
  let '(spaces, rest) := span isspace expr in
  if next_is "(" rest then Returns ()
  else Throws (XTokenizer (pos + length spaces) "Function not followed by (").

(** lines 207-336: one turn of the loop. *)
Definition tokenize_step (st : LexState) : Step :=
  (* strip whitespace *)
  let '(spaces, expr) := span isspace (remaining st) in
  let pos := currentChar st + length spaces in
  match expr with
  | [] => Break
  | c :: cs =>
      if isdigit c then
        let binary :=
          match cs with
          | b :: bits =>
              if Ascii.eqb c "0" && (Ascii.eqb b "b" || Ascii.eqb b "B")
              then Some bits else None
          | [] => None
          end in
        match binary with
        | Some bits =>
            let '(digits, rest) := span is_bit bits in
            match digits with
            | [] => Raise (XTokenizer (pos + 2) bad_character_message)
            | _ :: _ =>
                Continue
                  {| currentChar := pos + 2 + length digits;
                     remaining := rest;
                     prev := PrevCategory.Operand;
                     tokenizedExpression :=
                       tokenizedExpression st
                         ++ [const (Integer (binary_value digits))];
                     self := self st; heap := heap st |}
            end
        | None =>
            match _get_number pos expr with
            | Returns (number, consumed, rest) =>
                emit st (pos + consumed) rest number
            | Throws e => Raise e
            end
        end
      (* 2-character operators *)
      else if Ascii.eqb c "<" && next_is "=" cs
      then emit st (pos + 2) (tail cs) (binop LessEqual)
      else if Ascii.eqb c ">" && next_is "=" cs
      then emit st (pos + 2) (tail cs) (binop GreaterEqual)
      else if Ascii.eqb c "=" && next_is "=" cs
      then emit st (pos + 2) (tail cs) (binop Equality)
      else if Ascii.eqb c "!" && next_is "=" cs
      then emit st (pos + 2) (tail cs) (binop Inequality)
      else if Ascii.eqb c "*" && next_is "*" cs
      then emit st (pos + 2) (tail cs) (binop Power)
      (* 1-character operators *)
      else if Ascii.eqb c "*" then emit st (pos + 1) cs (binop Multiplication)
      else if Ascii.eqb c "/" then emit st (pos + 1) cs (binop Division)
      else if Ascii.eqb c "%" then emit st (pos + 1) cs (binop Modulus)
      else if Ascii.eqb c "(" then emit st (pos + 1) cs (TPseudo LeftParenthesis)
      else if Ascii.eqb c ")" then emit st (pos + 1) cs (TPseudo RightParenthesis)
      else if Ascii.eqb c "," then emit st (pos + 1) cs (TPseudo ArgumentSeparator)
      else if Ascii.eqb c "<" then emit st (pos + 1) cs (binop Less)
      else if Ascii.eqb c ">" then emit st (pos + 1) cs (binop Greater)
      else if Ascii.eqb c "!" then
        if follows_expression (prev st)
        then emit st (pos + 1) cs (postfix Factorial)
        else Raise (XTokenizer pos "Factorial must follow Expression")
      else if Ascii.eqb c "=" then emit st (pos + 1) cs (binop Assignment)
      (* multi-purpose operators *)
      else if Ascii.eqb c "+" then
        emit st (pos + 1) cs
          (if follows_expression (prev st)
           then binop Addition else unop Identity)
      else if Ascii.eqb c "-" then
        emit st (pos + 1) cs
          (if follows_expression (prev st)
           then binop Subtraction else unop Negation)
      (* identifiers *)
      else if isalpha c then
        let '(identToken, consumed, rest, self', heap') :=
          _get_identifier (self st) (heap st) expr in
        match (if is_Function identToken
               then expect_function_paren (pos + consumed) rest
               else Returns ()) with
        | Returns _ =>
            Continue {| currentChar := pos + consumed; remaining := rest;
                        prev := classify_prev (Some identToken);
                        tokenizedExpression :=
                          tokenizedExpression st ++ [identToken];
                        self := self'; heap := heap' |}
        | Throws e => Raise e
        end
      (* not a recognized token *)
      else Raise (XBadCharacter pos)
  end.

(** The loop of line 205.  Every turn that continues has consumed a
    character, so [fuel] above the number of remaining characters is never
    used up ([None]).  A throw leaves the tokenizer and the heap as the
    tokens before it made them. *)
Fixpoint tokenize_loop (fuel : nat) (st : LexState)
    : option (outcome (TokenList real) * Tokenizer * @Heap real) :=
  match fuel with
  | O => None
  | S fuel' =>
      match tokenize_step st with
      | Break => Some (Returns (tokenizedExpression st), self st, heap st)
      | Continue st' => tokenize_loop fuel' st'
      | Raise e => Some (Throws e, self st, heap st)
      end
  end.

Definition tokenize_start (self : Tokenizer) (heap : @Heap real)
    (expression : string) : LexState :=
  {| currentChar := 0; remaining := list_ascii_of_string expression;
     prev := PrevCategory.Start; tokenizedExpression := [];
     self := self; heap := heap |}.

(** [Tokenizer::tokenize] *)
Definition tokenize (self : Tokenizer) (heap : @Heap real)
    (expression : string)
    : option (outcome (TokenList real) * Tokenizer * @Heap real) :=
  tokenize_loop (S (String.length expression))
    (tokenize_start self heap expression).

End Tokenizer.

(** ** The parser (parser.cpp) *)

Section Parser.

Context {real : Type}.

(** lines 47-60 *)
Definition precedence (token : Token real) : Z :=
  match token with
  | postfix Factorial => 15
  | binop Power => 14
  | unop Identity | unop Negation | unop Not => 13
  | binop Multiplication | binop Division | binop Modulus => 12
  | binop Addition | binop Subtraction => 11
  | binop Less | binop LessEqual | binop Greater | binop GreaterEqual => 9
  | binop Equality | binop Inequality => 8
  | binop And | binop Nand => 6
  | binop Xor | binop Xnor => 5
  | binop Or | binop Nor => 4
  | binop Assignment => 1
  | _ => 0
  end.

(** lines 62-64 *)
Definition is_right_associative (token : Token real) : bool :=
  match token with
  | binop Power | binop Assignment => true
  | _ => false
  end.

(** The loops of lines 81-84 and 94-97: operators go from the stack (its top
    is the head of the list) to the output until the stack is empty or its
    top is a left parenthesis. *)
Fixpoint pop_to_LeftParenthesis (output opStack : TokenList real)
    : TokenList real * TokenList real :=
  match opStack with
  | top :: opStack' =>
      if is_LeftParenthesis top then (output, opStack)
      else pop_to_LeftParenthesis (output ++ [top]) opStack'
  | [] => (output, [])
  end.

(** The test of line 116. *)
Definition pops_before (top token : Token real) : bool :=
  (precedence top >? precedence token)
  || ((precedence top =? precedence token)
      && negb (is_right_associative token)).

(** The loop of lines 112-122. *)
Fixpoint pop_operators (token : Token real) (output opStack : TokenList real)
    : TokenList real * TokenList real :=
  match opStack with
  | top :: opStack' =>
      if is_Operator top then
        if pops_before top token
        then pop_operators token (output ++ [top]) opStack'
        else (output, opStack)
      else (output, opStack)
  | [] => (output, [])
  end.

Definition unmatched_right : exception :=
  runtime_error "Right parenthesis has no matching left parenthesis".
Definition missing_right : exception :=
  runtime_error "Missing right-parenthesis".

(** The body of the loop of lines 69-126. *)
Definition parse_token (token : Token real) (output opStack : TokenList real)
    : outcome (TokenList real * TokenList real) :=
  if is_Operand token then Returns (output ++ [token], opStack)
  else if is_Function token then Returns (output, token :: opStack)
  else if is_ArgumentSeparator token
  then Returns (pop_to_LeftParenthesis output opStack)
  else if is_LeftParenthesis token then Returns (output, token :: opStack)
  else if is_RightParenthesis token then
    let '(output', opStack') := pop_to_LeftParenthesis output opStack in
    match opStack' with
    | [] => Throws unmatched_right
    | _ :: opStack'' =>
        match opStack'' with
        | top :: below =>
            if is_Function top then Returns (output' ++ [top], below)
            else Returns (output', opStack'')
        | [] => Returns (output', [])
        end
    end
  else if is_Operator token then
    let '(output', opStack') := pop_operators token output opStack in
    Returns (output', token :: opStack')
  else Returns (output, opStack).

(** The loop of lines 69-126. *)
Fixpoint parse_loop (infixTokens output opStack : TokenList real)
    : outcome (TokenList real * TokenList real) :=
  match infixTokens with
  | token :: rest =>
      match parse_token token output opStack with
      | Returns (output', opStack') => parse_loop rest output' opStack'
      | Throws e => Throws e
      end
  | [] => Returns (output, opStack)
  end.

(** The loop of lines 128-133. *)
Fixpoint drain (output opStack : TokenList real) : outcome (TokenList real) :=
  match opStack with
  | top :: opStack' =>
      if is_LeftParenthesis top then Throws missing_right
      else drain (output ++ [top]) opStack'
  | [] => Returns output
  end.

(** [Parser::parse] *)
Definition parse (infixTokens : TokenList real) : outcome (TokenList real) :=
  '(output, opStack) ← parse_loop infixTokens [] [];
  drain output opStack.

End Parser.

(** ** The three stages in a row *)

Section Pipeline.

Context {real : Type} {host : RealHost real}.

(** [evaluate(parse(tokenize(expression)))] on a tokenizer and the heap of
    its variables: the result or the exception, and the tokenizer and heap
    left behind.  [None] only if the tokenizer loop ran out of fuel. *)
Definition run (self : Tokenizer) (heap : Heap) (expression : string)
    : option (outcome (Operand real) * Tokenizer * Heap) :=
  match tokenize self heap expression with
  | None => None
  | Some (Throws e, self', heap') => Some (Throws e, self', heap')
  | Some (Returns infixTokens, self', heap') =>
      match parse infixTokens with
      | Throws e => Some (Throws e, self', heap')
      | Returns rpnExpression =>
          let '(result, heap'') := evaluate rpnExpression heap' in
          Some (result, self', heap'')
      end
  end.

End Pipeline.

(** ** A host for the examples: the real numbers

    The mathematical reals with their decidable order stand in for the host's
    floating-point type wherever a closed example needs a concrete
    [RealHost]; every theorem below holds for any host. *)

Module IdealReals.

Definition ltb (a b : R) : bool := if Rlt_dec a b then true else false.
Definition leb (a b : R) : bool := if Rle_dec a b then true else false.
Definition eqb (a b : R) : bool := if Req_dec_T a b then true else false.

(** The value of a literal [digits.fraction]. *)
Definition of_string (s : string) : R :=
  let '(digits, rest) := span isdigit (list_ascii_of_string s) in
  let fraction := tail rest in
  (IZR (Integer_of_digits (digits ++ fraction))
   / IZR (10 ^ Z.of_nat (length fraction)))%R.

Definition atan2 (y x : R) : R :=
  if ltb 0 x then atan (y / x)
  else if ltb x 0 then
    if ltb y 0 then (atan (y / x) - PI)%R else (atan (y / x) + PI)%R
  else if ltb 0 y then (PI / 2)%R
  else if ltb y 0 then (- (PI / 2))%R
  else 0%R.

Definition floor (x : R) : R := IZR (Int_part x).

#[global] Instance host : RealHost R := {|
  real_of_string := of_string;
  real_of_integer := IZR;
  real_of_bool := fun b => if b then 1%R else 0%R;
  real_pi := PI;
  real_e := exp 1;
  real_neg := Ropp;
  real_add := Rplus;
  real_sub := Rminus;
  real_mul := Rmult;
  real_div := Rdiv;
  real_eqb := eqb;
  real_neb := fun a b => negb (eqb a b);
  real_ltb := ltb;
  real_leb := leb;
  real_gtb := fun a b => ltb b a;
  real_geb := fun a b => leb b a;
  real_pow := Rpower;
  real_atan2 := atan2;
  real_abs := Rabs;
  real_sin := sin;
  real_cos := cos;
  real_tan := tan;
  real_sqrt := sqrt;
  real_log := ln;
  real_log2 := fun x => (ln x / ln 2)%R;
  real_log10 := fun x => (ln x / ln 10)%R;
  real_exp := exp;
  real_floor := floor;
  real_ceil := fun x => Ropp (floor (Ropp x));
  real_acos := acos;
  real_asin := asin;
  real_atan := atan
|}.

End IdealReals.

(** ** Vocabulary of the statements *)

(** The boolean function a binary boolean operator stands for; [None] for
    the other binary operators. *)
Definition boolean_function (b : BinaryOperator)
    : option (bool -> bool -> bool) :=
  match b with
  | And => Some andb
  | Or => Some orb
  | Xor => Some (fun x y => negb (Bool.eqb x y))
  | Nand => Some (fun x y => negb (x && y))
  | Nor => Some (fun x y => negb (x || y))
  | Xnor => Some Bool.eqb
  | _ => None
  end.

(** A heap in which no variable has been assigned. *)
Definition unassigned {real : Type} (heap : @Heap real) : Prop :=
  Forall (eq None) heap.

(** The token the spec gives to a sign character [c], ["+"] or ["-"], from
    the category of the token emitted before it. *)
Definition sign_token {real : Type} (c : ascii)
    (category : PrevCategory.t) : Token real :=
  match category with
  | PrevCategory.Operand | PrevCategory.PostfixOp
  | PrevCategory.RightParenthesis =>
      if Ascii.eqb c "+" then binop Addition else binop Subtraction
  | _ =>
      if Ascii.eqb c "+" then unop Identity else unop Negation
  end.

(** The states the loop of [tokenize] goes through from [st0]. *)
Inductive reaches {real : Type} {host : RealHost real}
    (st0 : @LexState real) : @LexState real -> Prop :=
  | reaches_start : reaches st0 st0
  | reaches_turn (st st' : @LexState real) :
      reaches st0 st -> tokenize_step st = Continue st' -> reaches st0 st'.

(** The characters a token can hold after its first one: letters and
    digits, the point of a real, and the second character of a two-character
    operator. *)
Definition inner_char (c : ascii) : bool :=
  isalnum c || Ascii.eqb c "." || Ascii.eqb c "=" || Ascii.eqb c "*".

(** What the output of the parser is made of, and what it is free of. *)
Definition rpn_token {real : Type} (token : Token real) : bool :=
  is_Operand token || is_Operator token || is_Function token.
Definition pseudo_token {real : Type} (token : Token real) : bool :=
  is_LeftParenthesis token || is_RightParenthesis token
  || is_ArgumentSeparator token.

(** What the operator stack of the parser holds: tokens fit for the output,
    and left parentheses. *)
Definition stackable {real : Type} (token : Token real) : bool :=
  rpn_token token || is_LeftParenthesis token.

(** The characters line 215 to 326 of the tokenizer accept as the first
    character of a token. *)
Definition token_start (c : ascii) : bool :=
  isdigit c
  || Ascii.eqb c "<" || Ascii.eqb c ">" || Ascii.eqb c "=" || Ascii.eqb c "!"
  || Ascii.eqb c "*" || Ascii.eqb c "/" || Ascii.eqb c "%" || Ascii.eqb c "("
  || Ascii.eqb c ")" || Ascii.eqb c "," || Ascii.eqb c "+" || Ascii.eqb c "-"
  || isalpha c.

(** The offset an exception of the tokenizer carries. *)
Definition location (e : exception) : option nat :=
  match e with
  | XTokenizer location _ | XBadCharacter location => Some location
  | _ => None
  end.

(** The registry of variables is sound for a heap: every name is bound to
    a variable whose slot is in the heap, and no two names share a
    variable. *)
Definition registry_ok {real : Type} (self : @Tokenizer real)
    (heap : @Heap real) : Prop :=
  forall (name : string) (token : Token real),
    variables_m self !! name = Some token ->
    exists h : handle,
      token = var h /\ (h < length heap)%nat
      /\ forall name' : string,
           variables_m self !! name' = Some token -> name' = name.

(** The loop of the tokenizer stands before a left parenthesis, after
    whitespace. *)
Definition before_parenthesis {real : Type} (st : @LexState real) : Prop :=
  exists spaces rest : list ascii,
    Forall (fun x => isspace x = true) spaces
    /\ remaining st = spaces ++ "("%char :: rest.

(** The nesting of parentheses after [tokens], from the nesting [depth]:
    [None] when a right parenthesis comes with no left one open. *)
Fixpoint paren_depth {real : Type} (tokens : TokenList real) (depth : nat)
    : option nat :=
  match tokens with
  | [] => Some depth
  | token :: tokens' =>
      if is_LeftParenthesis token then paren_depth tokens' (S depth)
      else if is_RightParenthesis token then
        match depth with
        | O => None
        | S depth' => paren_depth tokens' depth'
        end
      else paren_depth tokens' depth
  end.

(** The left parentheses on the operator stack of the parser. *)
Fixpoint open_parentheses {real : Type} (opStack : TokenList real) : nat :=
  match opStack with
  | [] => 0
  | top :: opStack' =>
      ((if is_LeftParenthesis top then 1 else 0) + open_parentheses opStack')%nat
  end.

(** The unary operators written before their operand. *)
Definition is_prefix (u : UnaryOperator) : bool :=
  match u with
  | Postfix _ => false
  | _ => true
  end.

(** What a token does to the height of the operand stack of the evaluator
    when it is evaluated without a throw. *)
Definition stack_effect {real : Type} (token : Token real) : Z :=
  match token with
  | TOperand _ => 1
  | TOperation (Op (Binary _)) | TOperation (Fn (TwoArg _)) => -1
  | _ => 0
  end.

(** The integer and the real operation of [+], [-] and [*]. *)
Definition arithmetic_functions {real : Type} {host : RealHost real}
    (b : BinaryOperator) : option ((Z -> Z -> Z) * (real -> real -> real)) :=
  match b with
  | Addition => Some (Z.add, real_add)
  | Subtraction => Some (Z.sub, real_sub)
  | Multiplication => Some (Z.mul, real_mul)
  | _ => None
  end.

(** A state of the tokenizer loop run on another tokenizer and heap. *)
Definition on_tokenizer {real : Type} (st : @LexState real)
    (self' : @Tokenizer real) (heap' : @Heap real) : @LexState real :=
  {| currentChar := currentChar st; remaining := remaining st;
     prev := prev st; tokenizedExpression := tokenizedExpression st;
     self := self'; heap := heap' |}.

(** The predicate under which [filter] keeps the operands of a list. *)
Abbreviation operand_token :=
  (fun t : Token _ => is_Operand t = true).

(** The category the spec gives to the last token emitted, by the kind of
    the token: [Start] when there is none, [Operand] for a constant or a
    variable, [RightParenthesis] for a right parenthesis, [PostfixOp] for a
    postfix operator ([Factorial] is the only one), [Function] for a
    function of one or two arguments, [Other] for every other token: the
    binary operators, [Identity], [Negation], [Not], the left parenthesis
    and the argument separator. *)
Definition token_category {real : Type}
    (last_token : option (Token real)) : PrevCategory.t :=
  match last_token with
  | None => PrevCategory.Start
  | Some (TOperand _) => PrevCategory.Operand
  | Some (TPseudo RightParenthesis) => PrevCategory.RightParenthesis
  | Some (TOperation (Op (Unary (Postfix _)))) => PrevCategory.PostfixOp
  | Some (TOperation (Fn _)) => PrevCategory.Function
  | Some (TOperation (Op (Binary _)))
  | Some (TOperation (Op (Unary Identity)))
  | Some (TOperation (Op (Unary Negation)))
  | Some (TOperation (Op (Unary Not)))
  | Some (TPseudo LeftParenthesis)
  | Some (TPseudo ArgumentSeparator) => PrevCategory.Other
  end.

(** The last token emitted ends an expression: it is an operand, a postfix
    operator or a right parenthesis.  There is no such token at the start. *)
Definition ends_expression {real : Type}
    (last_token : option (Token real)) : bool :=
  match last_token with
  | Some (TOperand _)
  | Some (TOperation (Op (Unary (Postfix _))))
  | Some (TPseudo RightParenthesis) => true
  | _ => false
  end.

(** * Properties *)

(** ** The evaluator *)

Section EvaluatorFacts.

Context {real : Type} {host : RealHost real}.

Implicit Types (heap : @Heap real) (stack : OperandList real).
Implicit Types (operand lhsOp rhsOp : Operand real) (token : Token real).

Lemma factorial_loop_fact (n : nat) :
  factorial_loop (Z.of_nat n) = Z.of_nat (fact n).
Proof.
  unfold factorial_loop. induction n as [|n IH]; [reflexivity|].
  rewrite seqZ_S, foldl_snoc, IH.
  change (fact (S n)) with (fact n + n * fact n)%nat. lia.
Qed.

Lemma power_loop_nonneg (base : Z) (n : nat) :
  power_loop base (Z.of_nat n) = base ^ Z.of_nat n.
Proof.
  unfold power_loop. induction n as [|n IH]; [reflexivity|].
  rewrite seqZ_S, foldl_snoc, IH, Nat2Z.inj_succ, Z.pow_succ_r by lia. lia.
Qed.

Lemma power_loop_neg (base exp : Z) : exp < 0 -> power_loop base exp = 1.
Proof. intros H. unfold power_loop. rewrite seqZ_nil by lia. reflexivity. Qed.

Lemma power_loop_spec (base exp : Z) :
  power_loop base exp = if exp <? 0 then 1 else base ^ exp.
Proof.
  destruct (Z.ltb_spec exp 0) as [Hneg|Hpos].
  - by apply power_loop_neg.
  - rewrite <- (Z2Nat.id exp) by lia. apply power_loop_nonneg.
Qed.

Lemma to_value_uninitialized heap h :
  Variable_value heap h = None ->
  to_value heap (Variable_ h) = Throws not_initialized.
Proof. intros H. unfold to_value. rewrite H. reflexivity. Qed.

(** C5. [Factorial] pops one operand; when its dereferenced value is an
    integer [n >= 0] the integer [1 * 2 * ... * n] is pushed ([1] for
    [n = 0]); when the value is a negative integer, a real or a boolean,
    the evaluation throws the runtime error "Error: unsupported operand". *)
Theorem factorial_evaluation heap stack operand (val : Value) :
  to_value heap operand = Returns val ->
  eval_token (postfix Factorial) (operand :: stack) heap =
    match val with
    | VInteger n =>
        if 0 <=? n
        then Returns (Const (Integer (Z.of_nat (fact (Z.to_nat n)))) :: stack,
                      heap)
        else Throws (runtime_error "Error: unsupported operand")
    | _ => Throws (runtime_error "Error: unsupported operand")
    end.
Proof.
  intros Hval. cbn [eval_token]. unfold eval_PostfixOperator.
  rewrite Hval. cbn. destruct val as [n| |]; try reflexivity.
  destruct (Z.ltb_spec n 0), (Z.leb_spec 0 n); try lia; [reflexivity|].
  rewrite <- factorial_loop_fact, Z2Nat.id by lia. reflexivity.
Qed.

(** C8. [Power] on two operands whose values are the integers [base] and
    [exp] pushes the integer [1] when [exp < 0] (the multiplication loop
    runs zero times) and the integer [base ^ exp] when [exp >= 0]. *)
Theorem integer_power_evaluation heap stack lhsOp rhsOp (base exp : Z) :
  to_value heap lhsOp = Returns (VInteger base) ->
  to_value heap rhsOp = Returns (VInteger exp) ->
  eval_token (binop Power) (rhsOp :: lhsOp :: stack) heap =
    Returns (Const (Integer (if exp <? 0 then 1 else base ^ exp)) :: stack,
             heap).
Proof.
  intros Hl Hr. cbn [eval_token]. unfold eval_BinaryOperator.
  rewrite Hl, Hr. cbn. rewrite power_loop_spec. reflexivity.
Qed.

(** C9. The unary operators dereference their operand before they look at
    the operator: on a variable whose slot is empty every one of them throws
    "Error: variable not initialized", [Identity] included; on a constant or
    on a variable whose slot is set, [Identity] pushes back the very operand
    it popped, a variable as the same handle. *)
Theorem identity_evaluation heap stack :
  (forall (u : UnaryOperator) (h : handle),
     Variable_value heap h = None ->
     eval_token (unop u) (Variable_ h :: stack) heap =
       Throws (runtime_error "Error: variable not initialized"))
  /\ (forall operand (v : Value),
        to_value heap operand = Returns v ->
        eval_token (unop Identity) (operand :: stack) heap =
          Returns (operand :: stack, heap)).
Proof.
  split.
  - intros u h Hh. cbn [eval_token].
    destruct u as [| | |[]];
      unfold eval_UnaryOperator, eval_PostfixOperator;
      rewrite (to_value_uninitialized _ _ Hh); reflexivity.
  - intros operand v Hv. cbn [eval_token]. unfold eval_UnaryOperator.
    rewrite Hv. reflexivity.
Qed.

Lemma eval_loop_app (pre post : TokenList real) stack heap :
  eval_loop (pre ++ post) stack heap =
    match eval_loop pre stack heap with
    | (Returns stack', heap') => eval_loop post stack' heap'
    | (Throws e, heap') => (Throws e, heap')
    end.
Proof.
  revert stack heap. induction pre as [|t pre IH]; intros stack heap.
  - reflexivity.
  - cbn [app eval_loop].
    destruct (eval_token t stack heap) as [[stack' heap']|e]; [apply IH|done].
Qed.

(** C10. A token that is neither an operand nor an operation, such as a
    parenthesis left in the sequence, is skipped: the operand stack and the
    heap stay as they are and nothing is thrown, so the evaluation of a
    sequence is that of the sequence without the token. *)
Theorem other_token_skipped token :
  is_Operand token = false ->
  is_Operation token = false ->
  (forall stack heap, eval_token token stack heap = Returns (stack, heap))
  /\ (forall (pre post : TokenList real) heap,
        evaluate (pre ++ token :: post) heap = evaluate (pre ++ post) heap).
Proof.
  intros Hoperand Hoperation.
  assert (Hskip : forall stack heap,
             eval_token token stack heap = Returns (stack, heap)).
  { destruct token; [discriminate Hoperand|discriminate Hoperation|done]. }
  split; [exact Hskip|].
  intros pre post heap. unfold evaluate. rewrite !eval_loop_app.
  destruct (eval_loop pre [] heap) as [[stack'|e] heap']; [|reflexivity].
  cbn [eval_loop]. rewrite Hskip. reflexivity.
Qed.

(** *** The binary boolean operators *)

Lemma boolean_operators_on_booleans (b : BinaryOperator)
    (f : bool -> bool -> bool) heap stack lhsOp rhsOp (x y : bool) :
  boolean_function b = Some f ->
  to_value heap lhsOp = Returns (VBoolean x) ->
  to_value heap rhsOp = Returns (VBoolean y) ->
  eval_token (binop b) (rhsOp :: lhsOp :: stack) heap =
    Returns (Const (Boolean (f x y)) :: stack, heap).
Proof.
  intros Hf Hl Hr. cbn [eval_token]. unfold eval_BinaryOperator.
  rewrite Hl, Hr.
  destruct b; try discriminate Hf; injection Hf as <-;
    destruct x, y; reflexivity.
Qed.

Lemma boolean_operators_left_not_boolean (b : BinaryOperator)
    (f : bool -> bool -> bool) heap stack lhsOp rhsOp (lhs rhs : Value) :
  boolean_function b = Some f ->
  to_value heap lhsOp = Returns lhs ->
  to_value heap rhsOp = Returns rhs ->
  holds_bool lhs = false ->
  eval_token (binop b) (rhsOp :: lhsOp :: stack) heap =
    Throws bad_variant_access.
Proof.
  intros Hf Hl Hr Hlhs. cbn [eval_token]. unfold eval_BinaryOperator.
  rewrite Hl, Hr.
  destruct b; try discriminate Hf;
    destruct lhs, rhs; try discriminate Hlhs; reflexivity.
Qed.

(** The right operand of [&&] and [||] is not looked at when the left one
    decides: [false and v], [false nand v], [true or v] and [true nor v]
    evaluate whatever the value [v] is. *)
Lemma boolean_operators_short_circuit heap stack lhsOp rhsOp (rhs : Value) :
  to_value heap rhsOp = Returns rhs ->
  (to_value heap lhsOp = Returns (VBoolean false) ->
   eval_token (binop And) (rhsOp :: lhsOp :: stack) heap =
     Returns (Const (Boolean false) :: stack, heap)
   /\ eval_token (binop Nand) (rhsOp :: lhsOp :: stack) heap =
        Returns (Const (Boolean true) :: stack, heap))
  /\ (to_value heap lhsOp = Returns (VBoolean true) ->
      eval_token (binop Or) (rhsOp :: lhsOp :: stack) heap =
        Returns (Const (Boolean true) :: stack, heap)
      /\ eval_token (binop Nor) (rhsOp :: lhsOp :: stack) heap =
           Returns (Const (Boolean false) :: stack, heap)).
Proof.
  intros Hr. split; intros Hl; cbn [eval_token]; unfold eval_BinaryOperator;
    rewrite Hl, Hr; destruct rhs; split; reflexivity.
Qed.

(** C2, on the code.  The binary boolean operators do not test the kind of
    their operands: [false and 5] evaluates to [false] without any error
    (the sequence is [false 5 and], the right operand on top of the stack),
    and [5 and false] ends in the [std::bad_variant_access] of [std::get],
    not in the runtime error "Error: unsupported operand". *)
Theorem boolean_operators_unchecked stack heap :
  eval_token (binop And)
    (Const (Integer 5) :: Const (Boolean false) :: stack) heap =
    Returns (Const (Boolean false) :: stack, heap)
  /\ eval_token (binop And)
       (Const (Boolean false) :: Const (Integer 5) :: stack) heap =
       Throws bad_variant_access
  /\ run Tokenizer_new [] "false and 5" =
       Some (Returns (Const (Boolean false)), Tokenizer_new, []).
Proof. repeat split; reflexivity. Qed.

(** *** Assignment *)

Lemma to_value_throws heap operand (e : exception) :
  to_value heap operand = Throws e -> e = not_initialized.
Proof.
  destruct operand as [c|h]; cbn; [discriminate|].
  destruct (Variable_value heap h); [discriminate|congruence].
Qed.

(** The target of an assignment is dereferenced (line 156) before the
    operator is found to be [Assignment] (line 158): assigning to a variable
    whose slot is empty throws, whatever the right operand. *)
Lemma assignment_dereferences_target heap stack (h : handle) rhsOp :
  Variable_value heap h = None ->
  eval_token (binop Assignment) (rhsOp :: Variable_ h :: stack) heap =
    Throws not_initialized.
Proof.
  intros Hh. cbn [eval_token]. unfold eval_BinaryOperator.
  rewrite (to_value_uninitialized _ _ Hh).
  destruct (to_value heap rhsOp) as [v|e] eqn:Hr; cbn; [reflexivity|].
  by rewrite (to_value_throws _ _ _ Hr).
Qed.

(** On a variable whose slot is already set, the assignment does what
    lines 158-165 say: the slot receives the operand made from the value of
    the right operand and the variable is pushed. *)
Lemma assignment_to_set_variable heap stack (h : handle) rhsOp
    (c : Constant real) (v : Value) :
  Variable_value heap h = Some c ->
  to_value heap rhsOp = Returns v ->
  eval_token (binop Assignment) (rhsOp :: Variable_ h :: stack) heap =
    Returns (Variable_ h :: stack,
             Variable_set heap h (make_operand_from_value v))
  /\ to_value (Variable_set heap h (make_operand_from_value v))
       (Variable_ h) = Returns v.
Proof.
  intros Hh Hr. split.
  - cbn [eval_token]. unfold eval_BinaryOperator.
    rewrite Hr. cbn. rewrite Hh. cbn.
    by destruct (promote (value_of c) v).
  - unfold to_value, Variable_value, Variable_set, Heap in *.
    destruct (heap !! h) as [slot|] eqn:Hslot; [|discriminate Hh].
    apply lookup_lt_Some in Hslot.
    rewrite list_lookup_insert_eq by done. cbn. by destruct v.
Qed.

Lemma unassigned_value heap (h : handle) :
  unassigned heap -> Variable_value heap h = None.
Proof.
  intros Hheap. unfold Variable_value.
  destruct (heap !! h) as [slot|] eqn:Hslot; [|reflexivity].
  by rewrite <- (proj1 (Forall_lookup _ _) Hheap _ _ Hslot).
Qed.

(** Case analysis on an evaluation that returned. *)
Local Ltac settle H :=
  cbn in H; unfold arith, relational, get_real, and_then, or_else in H;
  unfold fmap, outcome_fmap, mbind, outcome_bind in H;
  repeat (case_match; cbn in H; try discriminate H);
  try (by simplify_eq).

(** No token changes a heap of unassigned variables: the only writer is an
    assignment, and it throws on them. *)
Lemma eval_token_unassigned token stack heap stack' heap' :
  unassigned heap ->
  eval_token token stack heap = Returns (stack', heap') ->
  heap' = heap.
Proof.
  intros Hheap Heval.
  destruct token as [o|[[b|u]|[f|f]]|p]; cbn [eval_token] in Heval.
  - by injection Heval.
  - destruct stack as [|rhsOp [|lhsOp stack]]; try discriminate Heval.
    destruct (decide (b = Assignment)) as [->|Hb].
    + destruct lhsOp as [c|h].
      * unfold eval_BinaryOperator in Heval.
        destruct (to_value heap rhsOp) as [rhs|]; cbn in Heval;
          [|discriminate Heval].
        destruct (promote (value_of c) rhs); discriminate Heval.
      * pose proof (assignment_dereferences_target heap stack h rhsOp
                      (unassigned_value _ _ Hheap)) as Hthrow.
        cbn [eval_token] in Hthrow. congruence.
    + unfold eval_BinaryOperator in Heval.
      destruct (to_value heap rhsOp) as [rhs|]; [|discriminate Heval].
      destruct (to_value heap lhsOp) as [lhs|]; [|discriminate Heval].
      destruct b; try done; settle Heval.
  - destruct stack as [|operand stack]; [discriminate Heval|].
    unfold eval_UnaryOperator, eval_PostfixOperator in Heval.
    destruct (to_value heap operand) as [val|]; settle Heval.
  - destruct stack as [|arg stack]; [discriminate Heval|].
    unfold eval_OneArgFunction in Heval.
    destruct (to_value heap arg) as [v|]; [|discriminate Heval].
    destruct f; settle Heval.
  - destruct stack as [|rhsOp [|lhsOp stack]]; try discriminate Heval.
    unfold eval_TwoArgFunction in Heval.
    destruct (to_value heap rhsOp) as [rhs|]; [|discriminate Heval].
    destruct (to_value heap lhsOp) as [lhs|]; [|discriminate Heval].
    destruct f; settle Heval.
  - by injection Heval.
Qed.

End EvaluatorFacts.

(** ** The tokenizer *)

Section TokenizerFacts.

Context {real : Type} {host : RealHost real}.

Implicit Types (st : @LexState real) (self : @Tokenizer real).
Implicit Types (heap : @Heap real) (expr cs : list ascii).

Lemma span_app (p : ascii -> bool) (l taken rest : list ascii) :
  span p l = (taken, rest) -> l = taken ++ rest.
Proof.
  revert taken rest. induction l as [|c l IH]; intros taken rest; cbn.
  - by intros [= <- <-].
  - destruct (p c); [|by intros [= <- <-]].
    destruct (span p l) as [taken' rest']. intros [= <- <-].
    by rewrite (IH _ _ eq_refl).
Qed.

Lemma span_length (p : ascii -> bool) (l taken rest : list ascii) :
  span p l = (taken, rest) -> (length rest <= length l)%nat.
Proof.
  intros H. rewrite (span_app _ _ _ _ H), length_app. lia.
Qed.

Lemma span_taken (p : ascii -> bool) (l taken rest : list ascii) :
  span p l = (taken, rest) -> Forall (fun c => p c = true) taken.
Proof.
  revert taken rest. induction l as [|c l IH]; intros taken rest; cbn.
  - intros [= <- <-]. constructor.
  - destruct (p c) eqn:Hc; [|intros [= <- <-]; constructor].
    destruct (span p l) as [taken' rest']. intros [= <- <-].
    constructor; eauto.
Qed.

Lemma span_stop (p : ascii -> bool) (ws : list ascii) (c : ascii) cs :
  Forall (fun x => p x = true) ws -> p c = false ->
  span p (ws ++ c :: cs) = (ws, c :: cs).
Proof.
  intros Hws Hc. induction Hws as [|w ws Hw _ IH]; cbn.
  - by rewrite Hc.
  - by rewrite Hw, IH.
Qed.

Lemma span_end (p : ascii -> bool) (ws : list ascii) :
  Forall (fun x => p x = true) ws -> span p ws = (ws, []).
Proof.
  intros Hws. induction Hws as [|w ws Hw _ IH]; cbn; [done|].
  by rewrite Hw, IH.
Qed.

(** [_get_number] consumes the digit it starts on, and makes an operand. *)
Lemma _get_number_returns (pos : nat) (c : ascii) cs
    (number : Token real) (consumed : nat) (rest : list ascii) :
  isdigit c = true ->
  _get_number pos (c :: cs) = Returns (number, consumed, rest) ->
  (length rest <= length cs)%nat /\ is_Operand number = true.
Proof.
  intros Hc. unfold _get_number. cbn [span]. rewrite Hc.
  destruct (span isdigit cs) as [digits rest0] eqn:Hdigits.
  apply span_length in Hdigits.
  destruct rest0 as [|d rest1]; [by intros [= <- <- <-]|].
  destruct (negb (Ascii.eqb d ".")); [by intros [= <- <- <-]|].
  destruct rest1 as [|d' rest2]; [discriminate|].
  destruct (isdigit d'); [|discriminate].
  destruct (span isdigit (d' :: rest2)) as [fraction rest'] eqn:Hfraction.
  apply span_length in Hfraction. intros [= <- <- <-].
  cbn [length] in *. split; [lia|done].
Qed.

(** [_get_identifier] consumes the letter it starts on; it leaves the
    keywords alone, and the heap too unless it appends the empty slot of a
    new variable. *)
Lemma _get_identifier_returns self heap (c : ascii) cs
    (token : Token real) (consumed : nat) (rest : list ascii)
    self' heap' :
  _get_identifier self heap (c :: cs) = (token, consumed, rest, self', heap') ->
  (length rest <= length cs)%nat
  /\ keywords_m self' = keywords_m self
  /\ (heap' = heap \/ heap' = heap ++ [None]).
Proof.
  unfold _get_identifier.
  destruct (span isalnum cs) as [more rest0] eqn:Hmore.
  apply span_length in Hmore.
  destruct (keywords_m self !! _); [intros [= <- <- <- <- <-]; auto|].
  destruct (variables_m self !! _); intros [= <- <- <- <- <-]; auto.
Qed.

(** Case analysis on a turn of the tokenizer loop that continues. *)
Local Ltac turn H :=
  unfold tokenize_step, emit in H;
  repeat (case_match; try discriminate H; simplify_eq);
  cbn [remaining tokenizedExpression prev heap self].

(** Every turn that continues has consumed at least one character. *)
Lemma tokenize_step_consumes st st' :
  tokenize_step st = Continue st' ->
  (length (remaining st') < length (remaining st))%nat.
Proof.
  intros H. turn H;
    repeat match goal with
      | H : span _ _ = _ |- _ => apply span_length in H
      | H : _get_number _ _ = _ |- _ =>
          apply _get_number_returns in H; [destruct H as [H _]|done]
      | H : _get_identifier _ _ _ = _ |- _ =>
          apply _get_identifier_returns in H; destruct H as (H & _ & _)
      | |- context [tail ?l] => is_var l; destruct l
      end;
    cbn [length tail] in *; lia.
Qed.

(** The loop of [tokenize] ends: the fuel it is given is never used up. *)
Lemma tokenize_loop_total (fuel : nat) st :
  (length (remaining st) < fuel)%nat -> is_Some (tokenize_loop fuel st).
Proof.
  revert st. induction fuel as [|fuel IH]; intros st Hfuel; [lia|].
  cbn [tokenize_loop].
  destruct (tokenize_step st) as [|st'|e] eqn:Hstep; [done| |done].
  apply IH. apply tokenize_step_consumes in Hstep. lia.
Qed.

Lemma list_ascii_length (s : string) :
  length (list_ascii_of_string s) = String.length s.
Proof. induction s as [|c s IH]; cbn; [done|by rewrite IH]. Qed.

Theorem tokenize_total self heap (expression : string) :
  is_Some (tokenize self heap expression).
Proof.
  apply tokenize_loop_total. cbn [remaining tokenize_start].
  rewrite list_ascii_length. lia.
Qed.

(** *** The previous category *)

(** After every turn, [prev] is the category of the last token emitted. *)
Lemma tokenize_step_prev st st' :
  tokenize_step st = Continue st' ->
  prev st' = classify_prev (last (tokenizedExpression st')).
Proof.
  intros H. turn H; rewrite last_snoc; try done.
  all: cbn [classify_prev]; repeat case_match; congruence.
Qed.

Lemma reaches_prev self heap (expression : string) st :
  reaches (tokenize_start self heap expression) st ->
  prev st = classify_prev (last (tokenizedExpression st)).
Proof.
  intros [|st1 st2 _ Hturn]; [reflexivity|].
  by apply (tokenize_step_prev st1).
Qed.

(** A turn of the loop that finds a sign character after the whitespace. *)
Lemma tokenize_step_sign st (spaces : list ascii) (c : ascii) cs :
  Forall (fun x => isspace x = true) spaces ->
  c = "+"%char \/ c = "-"%char ->
  remaining st = spaces ++ c :: cs ->
  tokenize_step st =
    emit st (currentChar st + length spaces + 1) cs
      (sign_token c (prev st)).
Proof.
  intros Hspaces Hc Hremaining. unfold tokenize_step.
  rewrite Hremaining, (span_stop isspace spaces c cs Hspaces)
    by (by destruct Hc as [-> | ->]).
  destruct Hc as [-> | ->]; cbn; unfold sign_token;
    by destruct (prev st).
Qed.

(** [classify_prev] sorts the tokens by kind as the spec's categories do. *)
Lemma classify_prev_kinds (last_token : option (Token real)) :
  classify_prev last_token = token_category last_token.
Proof.
  destruct last_token as [[o|[[b|[| | |p]]|f]|[| |]]|]; reflexivity.
Qed.

Lemma follows_expression_kinds (last_token : option (Token real)) :
  follows_expression (classify_prev last_token)
  = ends_expression last_token.
Proof.
  destruct last_token as [[o|[[b|[| | |p]]|f]|[| |]]|]; reflexivity.
Qed.

Lemma sign_token_kinds (c : ascii) (last_token : option (Token real)) :
  sign_token (real := real) c (classify_prev last_token)
  = if ends_expression last_token
    then (if Ascii.eqb c "+" then binop Addition else binop Subtraction)
    else (if Ascii.eqb c "+" then unop Identity else unop Negation).
Proof.
  destruct last_token as [[o|[[b|[| | |p]]|f]|[| |]]|]; reflexivity.
Qed.

(** C7. Wherever the tokenizer stands in an input, when the next character
    after any whitespace is ["+"] or ["-"] it emits [Addition] or
    [Subtraction] if the last token emitted is an operand, a postfix
    operator ([Factorial]) or a right parenthesis, and [Identity] or
    [Negation] otherwise: after a binary operator, [Identity], [Negation],
    [Not], a function, a left parenthesis or an argument separator, and at
    the start of the expression, where no token has been emitted.  The
    previous category the tokenizer holds at that point is the one of that
    last token, by its kind, [Start] when there is none; the whitespace
    skipped has no part in it. *)
Theorem sign_tokens self heap (expression : string) st
    (spaces : list ascii) (c : ascii) cs :
  reaches (tokenize_start self heap expression) st ->
  Forall (fun x => isspace x = true) spaces ->
  c = "+"%char \/ c = "-"%char ->
  remaining st = spaces ++ c :: cs ->
  exists st',
    tokenize_step st = Continue st'
    /\ prev st = token_category (last (tokenizedExpression st))
    /\ tokenizedExpression st' =
         tokenizedExpression st
           ++ [match last (tokenizedExpression st) with
               | Some (TOperand _)
               | Some (TOperation (Op (Unary (Postfix _))))
               | Some (TPseudo RightParenthesis) =>
                   if Ascii.eqb c "+" then binop Addition
                   else binop Subtraction
               | _ =>
                   if Ascii.eqb c "+" then unop Identity
                   else unop Negation
               end]
    /\ remaining st' = cs
    /\ token_category (@None (Token real)) = PrevCategory.Start.
Proof.
  intros Hreach Hspaces Hc Hremaining.
  pose proof (reaches_prev _ _ _ _ Hreach) as Hprev.
  rewrite (tokenize_step_sign _ _ _ _ Hspaces Hc Hremaining).
  eexists. split; [reflexivity|].
  split; [by rewrite Hprev, classify_prev_kinds|].
  split; [|done].
  cbn [tokenizedExpression]. f_equal. f_equal.
  rewrite Hprev, sign_token_kinds.
  by destruct (last (tokenizedExpression st))
    as [[o|[[b|[| | |p]]|f]|[| |]]|].
Qed.

(** *** A sign character is a token of its own *)

Lemma isdigit_inner (l : list ascii) :
  Forall (fun c => isdigit c = true) l ->
  Forall (fun c => inner_char c = true) l.
Proof.
  intros Hl. eapply Forall_impl; [exact Hl|]. intros c Hc. unfold inner_char, isalnum.
  rewrite Hc. by rewrite orb_true_r.
Qed.

Lemma is_bit_inner (l : list ascii) :
  Forall (fun c => is_bit c = true) l ->
  Forall (fun c => inner_char c = true) l.
Proof.
  intros Hl. eapply Forall_impl; [exact Hl|]. intros c Hc. unfold is_bit in Hc.
  apply orb_true_iff in Hc as [Hc|Hc]; apply Ascii.eqb_eq in Hc as ->; done.
Qed.

Lemma isalnum_inner (l : list ascii) :
  Forall (fun c => isalnum c = true) l ->
  Forall (fun c => inner_char c = true) l.
Proof.
  intros Hl. eapply Forall_impl; [exact Hl|].
  intros c Hc. unfold inner_char. by rewrite Hc.
Qed.

Lemma _get_number_inner (pos : nat) (c : ascii) cs
    (number : Token real) (consumed : nat) (rest : list ascii) :
  isdigit c = true ->
  _get_number pos (c :: cs) = Returns (number, consumed, rest) ->
  exists more, cs = more ++ rest /\ Forall (fun x => inner_char x = true) more.
Proof.
  intros Hc. unfold _get_number. cbn [span]. rewrite Hc.
  destruct (span isdigit cs) as [digits rest0] eqn:Hdigits.
  pose proof (span_taken _ _ _ _ Hdigits) as Hall.
  apply span_app in Hdigits as ->. apply isdigit_inner in Hall.
  destruct rest0 as [|d rest1]; [intros [= <- <- <-]; eauto|].
  destruct (negb (Ascii.eqb d ".")) eqn:Hd; [intros [= <- <- <-]; eauto|].
  apply negb_false_iff, Ascii.eqb_eq in Hd as ->.
  destruct rest1 as [|d' rest2]; [discriminate|].
  destruct (isdigit d'); [|discriminate].
  destruct (span isdigit (d' :: rest2)) as [fraction rest'] eqn:Hfraction.
  pose proof (span_taken _ _ _ _ Hfraction) as Hall'.
  apply span_app in Hfraction as ->. apply isdigit_inner in Hall'.
  intros [= <- <- <-]. exists (digits ++ "."%char :: fraction). split.
  - by rewrite <- app_assoc.
  - apply Forall_app. split; [done|]. by constructor.
Qed.

Lemma _get_identifier_inner self heap (c : ascii) cs
    (token : Token real) (consumed : nat) (rest : list ascii)
    self' heap' :
  _get_identifier self heap (c :: cs) = (token, consumed, rest, self', heap') ->
  exists more, cs = more ++ rest /\ Forall (fun x => inner_char x = true) more.
Proof.
  unfold _get_identifier.
  destruct (span isalnum cs) as [more rest0] eqn:Hmore.
  pose proof (span_taken _ _ _ _ Hmore) as Hall.
  apply span_app in Hmore as ->. apply isalnum_inner in Hall.
  destruct (keywords_m self !! _); [intros [= <- <- <- <- <-]; eauto|].
  destruct (variables_m self !! _); intros [= <- <- <- <- <-]; eauto.
Qed.

Lemma next_is_inner (symbol2 : ascii) cs :
  inner_char symbol2 = true -> next_is symbol2 cs = true ->
  exists more, cs = more ++ tail cs
               /\ Forall (fun x => inner_char x = true) more.
Proof.
  intros Hinner. destruct cs as [|c cs]; [discriminate|]. cbn.
  intros Hc%Ascii.eqb_eq. exists [c]. split; [done|].
  constructor; [by rewrite Hc|done].
Qed.

(** Whatever token a turn of the loop makes, the characters it consumes
    after the first are letters, digits, ["."], ["="] or ["*"]: a ["+"] or
    ["-"] is never inside another token, so that every sign character of an
    input the tokenizer gets through comes first in some turn. *)
Lemma sign_not_inside_token st st' (spaces : list ascii) (c : ascii) cs :
  tokenize_step st = Continue st' ->
  span isspace (remaining st) = (spaces, c :: cs) ->
  exists more,
    cs = more ++ remaining st'
    /\ Forall (fun x => x <> "+"%char /\ x <> "-"%char) more.
Proof.
  intros H Hspan.
  cut (exists more, cs = more ++ remaining st'
                    /\ Forall (fun x => inner_char x = true) more).
  { intros (more & -> & Hall). exists more. split; [done|].
    eapply Forall_impl; [exact Hall|]. intros x Hx. split; by intros ->. }
  unfold tokenize_step in H. rewrite Hspan in H. unfold emit in H.
  repeat (case_match; try discriminate H; simplify_eq);
    cbn [remaining];
    repeat match goal with
      | H : _ && next_is _ _ = true |- _ => apply andb_true_iff in H as [_ H]
      end;
    first
      [ by exists []
      | by (eapply next_is_inner; [|eassumption]; reflexivity)
      | by eapply _get_number_inner
      | by eapply _get_identifier_inner
      | idtac ].
  match goal with
  | H : span is_bit _ = _ |- _ =>
      pose proof (span_taken _ _ _ _ H) as Hall;
      apply span_app in H as ->; apply is_bit_inner in Hall
  end.
  eexists (_ :: _). split; [reflexivity|]. constructor; [|done].
  match goal with
  | H : _ && (_ || _) = true |- _ =>
      apply andb_true_iff in H as [_ H];
      apply orb_true_iff in H as [H|H]; apply Ascii.eqb_eq in H as ->
  end; reflexivity.
Qed.

(** *** A literal that ends on its point *)

Lemma isdigit_not_other (c : ascii) :
  isdigit c = true ->
  isspace c = false /\ Ascii.eqb c "b" = false /\ Ascii.eqb c "B" = false.
Proof. destruct c as [[] [] [] [] [] [] [] []]; done. Qed.

Lemma _get_number_point (pos : nat) (digits rest : list ascii) :
  Forall (fun c => isdigit c = true) digits ->
  from_option isdigit false (head rest) = false ->
  _get_number (real := real) pos (digits ++ "."%char :: rest) =
    Throws (XTokenizer (pos + length digits + 1) bad_character_message).
Proof.
  intros Hdigits Hrest. unfold _get_number.
  rewrite (span_stop isdigit digits "." rest Hdigits eq_refl).
  cbn. destruct rest as [|d rest]; [done|]. cbn in Hrest. by rewrite Hrest.
Qed.

(** C6, as the code has it.  When the loop stands before a numeric literal
    made of digits and a ["."] that no digit follows, [tokenize] throws an
    [XTokenizer], not an [XBadCharacter]; it carries the offset of what
    follows the point and the message
    "Tokenizer::Bad character in expression.". *)
Theorem literal_ending_on_point st (fuel : nat)
    (spaces digits rest : list ascii) :
  Forall (fun c => isspace c = true) spaces ->
  digits <> [] ->
  Forall (fun c => isdigit c = true) digits ->
  from_option isdigit false (head rest) = false ->
  remaining st = spaces ++ digits ++ "."%char :: rest ->
  tokenize_loop (S fuel) st =
    Some (Throws (XTokenizer (currentChar st + length spaces + length digits + 1)
                    "Tokenizer::Bad character in expression."),
          self st, heap st).
Proof.
  intros Hspaces Hnonempty Hdigits Hrest Hremaining.
  cbn [tokenize_loop].
  enough (tokenize_step st =
            Raise (XTokenizer
                     (currentChar st + length spaces + length digits + 1)
                     bad_character_message)) as -> by reflexivity.
  unfold tokenize_step. rewrite Hremaining.
  destruct digits as [|d digits]; [done|].
  apply Forall_cons in Hdigits as [Hd Hdigits].
  destruct (isdigit_not_other d Hd) as (Hspace & _ & _).
  rewrite <- app_comm_cons, (span_stop isspace spaces d _ Hspaces Hspace), Hd.
  assert (Hbinary :
    match digits ++ "."%char :: rest with
    | b :: bits =>
        if Ascii.eqb d "0" && (Ascii.eqb b "b" || Ascii.eqb b "B")
        then Some bits else None
    | [] => None
    end = None).
  { destruct digits as [|d' digits]; cbn.
    - by rewrite andb_false_r.
    - apply Forall_cons in Hdigits as [Hd' _].
      destruct (isdigit_not_other d' Hd') as (_ & -> & ->).
      by rewrite andb_false_r. }
  rewrite Hbinary, app_comm_cons, _get_number_point
    by (done || by constructor).
  reflexivity.
Qed.

End TokenizerFacts.

(** ** The parser *)

Section ParserFacts.

Context {real : Type}.

Implicit Types (token top : Token real).
Implicit Types (output opStack infixTokens : TokenList real).

Lemma rpn_token_not_pseudo token :
  rpn_token token = true -> pseudo_token token = false.
Proof. by destruct token as [o|[o|f]|[]]. Qed.

Lemma stackable_rpn token :
  stackable token = true -> is_LeftParenthesis token = false ->
  rpn_token token = true.
Proof.
  unfold stackable. intros H Hleft. rewrite Hleft, orb_false_r in H. exact H.
Qed.

Lemma Forall_snoc (P : Token real -> Prop) output token :
  Forall P output -> P token -> Forall P (output ++ [token]).
Proof. intros. apply Forall_app. split; [done|by constructor]. Qed.

Lemma pop_to_LeftParenthesis_invariant output opStack output' opStack' :
  pop_to_LeftParenthesis output opStack = (output', opStack') ->
  Forall (fun t => rpn_token t = true) output ->
  Forall (fun t => stackable t = true) opStack ->
  Forall (fun t => rpn_token t = true) output'
  /\ Forall (fun t => stackable t = true) opStack'.
Proof.
  revert output. induction opStack as [|top opStack IH]; intros output; cbn.
  - by intros [= <- <-].
  - destruct (is_LeftParenthesis top) eqn:Hleft; [by intros [= <- <-]|].
    intros Hpop Houtput [Htop Hstack]%Forall_cons.
    apply (IH _ Hpop); [|done].
    apply Forall_snoc; [done|by apply stackable_rpn].
Qed.

Lemma pop_operators_invariant token output opStack output' opStack' :
  pop_operators token output opStack = (output', opStack') ->
  Forall (fun t => rpn_token t = true) output ->
  Forall (fun t => stackable t = true) opStack ->
  Forall (fun t => rpn_token t = true) output'
  /\ Forall (fun t => stackable t = true) opStack'.
Proof.
  revert output. induction opStack as [|top opStack IH]; intros output; cbn.
  - by intros [= <- <-].
  - destruct (is_Operator top) eqn:Hop; [|by intros [= <- <-]].
    destruct (pops_before top token); [|by intros [= <- <-]].
    intros Hpop Houtput [Htop Hstack]%Forall_cons.
    apply (IH _ Hpop); [|done].
    apply Forall_snoc; [done|]. unfold rpn_token.
    by rewrite Hop, orb_true_r.
Qed.

Lemma parse_token_invariant token output opStack output' opStack' :
  parse_token token output opStack = Returns (output', opStack') ->
  Forall (fun t => rpn_token t = true) output ->
  Forall (fun t => stackable t = true) opStack ->
  Forall (fun t => rpn_token t = true) output'
  /\ Forall (fun t => stackable t = true) opStack'.
Proof.
  unfold parse_token. intros Hparse Houtput Hstack.
  destruct (is_Operand token) eqn:Hoperand.
  { injection Hparse as <- <-. split; [|done].
    apply Forall_snoc; [done|]. unfold rpn_token. by rewrite Hoperand. }
  destruct (is_Function token) eqn:Hfunction.
  { injection Hparse as <- <-. split; [done|]. constructor; [|done].
    unfold stackable, rpn_token. by rewrite Hfunction, orb_true_r. }
  destruct (is_ArgumentSeparator token).
  { injection Hparse as Hpop.
    by apply (pop_to_LeftParenthesis_invariant _ _ _ _ Hpop). }
  destruct (is_LeftParenthesis token) eqn:Hleft.
  { injection Hparse as <- <-. split; [done|]. constructor; [|done].
    unfold stackable. by rewrite Hleft, orb_true_r. }
  destruct (is_RightParenthesis token).
  { destruct (pop_to_LeftParenthesis output opStack)
      as [output1 opStack1] eqn:Hpop.
    destruct (pop_to_LeftParenthesis_invariant _ _ _ _ Hpop Houtput Hstack)
      as [Houtput1 Hstack1].
    destruct opStack1 as [|paren [|top below]]; [done| |].
    - by injection Hparse as <- <-.
    - apply Forall_cons in Hstack1 as [_ [Htop Hbelow]%Forall_cons].
      destruct (is_Function top) eqn:Htopfn; injection Hparse as <- <-.
      + split; [|done]. apply Forall_snoc; [done|].
        unfold rpn_token. by rewrite Htopfn, orb_true_r.
      + split; [done|by constructor]. }
  destruct (is_Operator token) eqn:Hoperator.
  { destruct (pop_operators token output opStack)
      as [output1 opStack1] eqn:Hpop.
    destruct (pop_operators_invariant _ _ _ _ _ Hpop Houtput Hstack)
      as [Houtput1 Hstack1].
    injection Hparse as <- <-. split; [done|]. constructor; [|done].
    unfold stackable, rpn_token. by rewrite Hoperator, orb_true_r. }
  by injection Hparse as <- <-.
Qed.

Lemma parse_loop_invariant infixTokens output opStack output' opStack' :
  parse_loop infixTokens output opStack = Returns (output', opStack') ->
  Forall (fun t => rpn_token t = true) output ->
  Forall (fun t => stackable t = true) opStack ->
  Forall (fun t => rpn_token t = true) output'
  /\ Forall (fun t => stackable t = true) opStack'.
Proof.
  revert output opStack.
  induction infixTokens as [|token rest IH]; intros output opStack; cbn.
  - by intros [= <- <-].
  - destruct (parse_token token output opStack)
      as [[output1 opStack1]|e] eqn:Htoken; [|done].
    intros Hloop Houtput Hstack.
    destruct (parse_token_invariant _ _ _ _ _ Htoken Houtput Hstack).
    by apply (IH _ _ Hloop).
Qed.

Lemma drain_invariant output opStack output' :
  drain output opStack = Returns output' ->
  Forall (fun t => rpn_token t = true) output ->
  Forall (fun t => stackable t = true) opStack ->
  Forall (fun t => rpn_token t = true) output'.
Proof.
  revert output. induction opStack as [|top opStack IH]; intros output; cbn.
  - by intros [= <-].
  - destruct (is_LeftParenthesis top) eqn:Hleft; [done|].
    intros Hdrain Houtput [Htop Hstack]%Forall_cons.
    apply (IH _ Hdrain); [|done].
    apply Forall_snoc; [done|by apply stackable_rpn].
Qed.

(** Whatever the tokens given to it, the list [parse] returns is made of
    operands, operators and functions. *)
Lemma parse_output infixTokens (rpn : TokenList real) :
  parse infixTokens = Returns rpn ->
  Forall (fun t => rpn_token t = true) rpn.
Proof.
  unfold parse.
  destruct (parse_loop infixTokens [] []) as [[output opStack]|e] eqn:Hloop;
    [|done].
  cbn. intros Hdrain.
  destruct (parse_loop_invariant _ _ _ _ _ Hloop) as [Houtput Hstack];
    [done..|].
  by apply (drain_invariant _ _ _ Hdrain).
Qed.

End ParserFacts.

(** ** The stages together *)

Section PipelineFacts.

Context {real : Type} {host : RealHost real}.

Implicit Types (self : @Tokenizer real) (heap : @Heap real).
Implicit Types (output opStack : TokenList real).

(** C3. When the tokenizer accepts an input and [parse] returns on its
    tokens, the list returned holds operands, operators and functions only:
    no [LeftParenthesis], [RightParenthesis] or [ArgumentSeparator]. *)
Theorem parse_without_pseudo_tokens self heap (expression : string)
    (infixTokens rpn : TokenList real) self' heap' :
  tokenize self heap expression = Some (Returns infixTokens, self', heap') ->
  parse infixTokens = Returns rpn ->
  Forall (fun t => rpn_token t = true /\ pseudo_token t = false) rpn.
Proof.
  intros _ Hparse. apply parse_output in Hparse.
  eapply Forall_impl; [exact Hparse|].
  intros t Ht. split; [done|by apply rpn_token_not_pseudo].
Qed.

(** C4. An incoming operator [o] first sends operators from the top of the
    stack to the output, then is pushed.  The operator [t] on top goes
    exactly when [prec(t) > prec(o)], or [prec(t) = prec(o)] and [o] is
    neither [Power] nor [Assignment], the two right-associative operators;
    otherwise the popping stops.  So ["2 ** 3 ** 2"] is [2 ** (3 ** 2)],
    the integer 512. *)
Theorem operator_popping (t o : Operator) output opStack :
  let top : Token real := TOperation (Op t) in
  let token : Token real := TOperation (Op o) in
  parse_token token output opStack =
    Returns (let '(output', opStack') := pop_operators token output opStack in
             (output', token :: opStack'))
  /\ (precedence top > precedence token
      \/ (precedence top = precedence token
          /\ o <> Binary Power /\ o <> Binary Assignment) ->
      pop_operators token output (top :: opStack) =
        pop_operators token (output ++ [top]) opStack)
  /\ (~ (precedence top > precedence token
         \/ (precedence top = precedence token
             /\ o <> Binary Power /\ o <> Binary Assignment)) ->
      pop_operators token output (top :: opStack) = (output, top :: opStack))
  /\ parse (real := real)
       [const (Integer 2); binop Power; const (Integer 3); binop Power;
        const (Integer 2)] =
       Returns [const (Integer 2); const (Integer 3); const (Integer 2);
                binop Power; binop Power]
  /\ run Tokenizer_new [] "2 ** 3 ** 2" =
       Some (Returns (Const (Integer 512)), Tokenizer_new, []).
Proof.
  intros top token.
  assert (Hright : is_right_associative token = false
                   <-> o <> Binary Power /\ o <> Binary Assignment).
  { subst token. destruct o as [[]|u]; cbn; intuition congruence. }
  assert (Hpops : pops_before top token = true
                  <-> precedence top > precedence token
                      \/ (precedence top = precedence token
                          /\ o <> Binary Power /\ o <> Binary Assignment)).
  { unfold pops_before. rewrite orb_true_iff, andb_true_iff, negb_true_iff.
    rewrite Z.gtb_gt, Z.eqb_eq, Hright. done. }
  split; [|split; [|split; [|split]]].
  - unfold parse_token. cbn.
    by destruct (pop_operators token output opStack).
  - intros Hcond%Hpops. subst top. cbn [pop_operators is_Operator].
    by rewrite Hcond.
  - intros Hcond. subst top. cbn [pop_operators is_Operator].
    destruct (pops_before (TOperation (Op t)) token); [|done].
    exfalso. by apply Hcond, Hpops.
  - reflexivity.
  - reflexivity.
Qed.

(** *** Assignment through the three stages *)

Lemma tokenize_step_unassigned (st st' : @LexState real) :
  tokenize_step st = Continue st' ->
  unassigned (heap st) -> unassigned (heap st').
Proof.
  intros H Hheap. unfold tokenize_step, emit in H.
  repeat (case_match; try discriminate H; simplify_eq);
    cbn [heap]; try done.
  all: match goal with
       | H : _get_identifier _ _ _ = _ |- _ =>
           apply _get_identifier_returns in H as (_ & _ & [-> | ->])
       end; [done|].
  all: apply Forall_app; split; [done|by constructor].
Qed.

Lemma tokenize_loop_unassigned (fuel : nat) (st : @LexState real)
    (r : outcome (TokenList real)) self' heap' :
  tokenize_loop fuel st = Some (r, self', heap') ->
  unassigned (heap st) -> unassigned heap'.
Proof.
  revert st. induction fuel as [|fuel IH]; intros st; [done|].
  cbn [tokenize_loop].
  destruct (tokenize_step st) as [|st1|e] eqn:Hstep.
  - by intros [= <- <- <-].
  - intros Hloop Hheap. apply (IH _ Hloop).
    by apply (tokenize_step_unassigned st).
  - by intros [= <- <- <-].
Qed.

Lemma eval_loop_unassigned (rpn : TokenList real) (stack : OperandList real)
    heap :
  unassigned heap -> (eval_loop rpn stack heap).2 = heap.
Proof.
  intros Hheap. revert stack.
  induction rpn as [|token rpn IH]; intros stack; cbn; [done|].
  destruct (eval_token token stack heap) as [[stack' heap']|e] eqn:Htoken;
    [|done].
  apply eval_token_unassigned in Htoken as ->; [apply IH|done].
Qed.

(** On a tokenizer none of whose variables is assigned, no expression
    assigns one: the variables a tokenizer makes start unassigned, so no
    assignment ever takes effect and no variable can ever be read. *)
Lemma run_never_assigns self heap (expression : string)
    (r : outcome (Operand real)) self' heap' :
  unassigned heap ->
  run self heap expression = Some (r, self', heap') ->
  unassigned heap'.
Proof.
  intros Hheap. unfold run, tokenize.
  destruct (tokenize_loop _ _) as [[[[infixTokens|e] self1] heap1]|] eqn:Hloop;
    [| |done].
  - apply tokenize_loop_unassigned in Hloop; [|done].
    destruct (parse infixTokens) as [rpn|e]; [|by intros [= <- <- <-]].
    unfold evaluate.
    pose proof (eval_loop_unassigned rpn [] heap1 Hloop) as Heval.
    destruct (eval_loop rpn [] heap1) as [r1 heap2]. cbn in Heval.
    intros [= <- <- <-]. by subst.
  - apply tokenize_loop_unassigned in Hloop; [|done].
    by intros [= <- <- <-].
Qed.

(** C1, on the code.  On a new tokenizer, ["x = 5"] does not assign: the
    evaluator dereferences the target of the assignment before it assigns,
    and throws "Error: variable not initialized" on the variable just made.
    [x] is registered and its slot stays empty: ["x"] evaluated next on the
    same tokenizer returns the variable, which has no value where 5 was
    expected, and ["x + 1"] throws the same error. *)
Theorem assignment_to_new_variable_throws :
  let self' : @Tokenizer real :=
    {| keywords_m := keywords_m Tokenizer_new;
       variables_m := {["x" := var 0%nat]} |} in
  run Tokenizer_new [] "x = 5" =
    Some (Throws (runtime_error "Error: variable not initialized"),
          self', [None])
  /\ run self' [None] "x" = Some (Returns (Variable_ 0%nat), self', [None])
  /\ to_value [None] (Variable_ 0%nat) =
       Throws (runtime_error "Error: variable not initialized")
  /\ run self' [None] "x + 1" =
       Some (Throws (runtime_error "Error: variable not initialized"),
             self', [None]).
Proof. repeat split; reflexivity. Qed.

End PipelineFacts.

(** ** The statements at concrete inputs *)

Lemma parse_without_pseudo_tokens_witness :
  let infixTokens : TokenList R :=
    [fn2 Max; TPseudo LeftParenthesis; const (Integer 1);
     TPseudo ArgumentSeparator; const (Integer 2); TPseudo RightParenthesis;
     binop Addition; const (Integer 3)] in
  let rpn : TokenList R :=
    [const (Integer 1); const (Integer 2); fn2 Max; const (Integer 3);
     binop Addition] in
  tokenize Tokenizer_new [] "max(1, 2) + 3" =
    Some (Returns infixTokens, Tokenizer_new, [])
  /\ parse infixTokens = Returns rpn
  /\ Forall (fun t => rpn_token t = true /\ pseudo_token t = false) rpn.
Proof.
  intros infixTokens rpn.
  assert (Htokenize : tokenize Tokenizer_new [] "max(1, 2) + 3" =
                        Some (Returns infixTokens, Tokenizer_new, []))
    by reflexivity.
  assert (Hparse : parse infixTokens = Returns rpn) by reflexivity.
  split; [exact Htokenize|]. split; [exact Hparse|].
  exact (parse_without_pseudo_tokens _ _ _ _ _ _ _ Htokenize Hparse).
Defined.

Lemma operator_popping_witness :
  precedence (real := R) (binop Multiplication)
    > precedence (real := R) (binop Addition)
  /\ pop_operators (real := R) (binop Addition)
       [const (Integer 1); const (Integer 2)] [binop Multiplication] =
       ([const (Integer 1); const (Integer 2); binop Multiplication], []).
Proof.
  assert (Hgt : precedence (real := R) (binop Multiplication)
                > precedence (real := R) (binop Addition)) by reflexivity.
  split; [exact Hgt|].
  exact (proj1 (proj2 (operator_popping (Binary Multiplication)
                         (Binary Addition)
                         [const (Integer 1); const (Integer 2)] []))
           (or_introl Hgt)).
Defined.

Lemma factorial_evaluation_witness :
  to_value (real := R) [] (Const (Integer 5)) = Returns (VInteger 5)
  /\ eval_token (real := R) (postfix Factorial) [Const (Integer 5)] [] =
       Returns ([Const (Integer 120)], []).
Proof.
  split; [reflexivity|].
  exact (factorial_evaluation [] [] (Const (Integer 5)) (VInteger 5) eq_refl).
Defined.

Lemma literal_ending_on_point_witness :
  remaining (tokenize_start (real := R) Tokenizer_new [] " 12.x") =
    [" "%char] ++ ["1"%char; "2"%char] ++ "."%char :: ["x"%char]
  /\ tokenize (real := R) Tokenizer_new [] " 12.x" =
       Some (Throws (XTokenizer 4 "Tokenizer::Bad character in expression."),
             Tokenizer_new, []).
Proof.
  split; [reflexivity|].
  refine (literal_ending_on_point
            (tokenize_start (real := R) Tokenizer_new [] " 12.x") 5
            [" "%char] ["1"%char; "2"%char] ["x"%char] _ _ _ _ _).
  - repeat constructor.
  - discriminate.
  - repeat constructor.
  - reflexivity.
  - reflexivity.
Defined.

Lemma sign_tokens_witness :
  let st0 := tokenize_start (real := R) Tokenizer_new [] "3! - 1" in
  let st :=
    {| currentChar := 2;
       remaining := [" "%char; "-"%char; " "%char; "1"%char];
       prev := PrevCategory.PostfixOp;
       tokenizedExpression := [const (Integer 3); postfix Factorial];
       self := Tokenizer_new;
       heap := [] |} in
  reaches st0 st
  /\ remaining st = [" "%char] ++ "-"%char :: [" "%char; "1"%char]
  /\ exists st',
       tokenize_step st = Continue st'
       /\ prev st = PrevCategory.PostfixOp
       /\ tokenizedExpression st' =
            [const (Integer 3); postfix Factorial; binop Subtraction]
       /\ remaining st' = [" "%char; "1"%char]
       /\ token_category (@None (Token R)) = PrevCategory.Start.
Proof.
  intros st0 st.
  assert (Hreach : reaches st0 st).
  { eapply reaches_turn; [eapply reaches_turn; [apply reaches_start|]|];
      reflexivity. }
  split; [exact Hreach|]. split; [reflexivity|].
  refine (sign_tokens Tokenizer_new [] "3! - 1" st [" "%char]
            "-"%char [" "%char; "1"%char] Hreach _ _ _).
  - repeat constructor.
  - right. reflexivity.
  - reflexivity.
Defined.

Lemma integer_power_evaluation_witness :
  to_value (real := R) [] (Const (Integer 2)) = Returns (VInteger 2)
  /\ to_value (real := R) [] (Const (Integer (-3))) = Returns (VInteger (-3))
  /\ eval_token (real := R) (binop Power)
       [Const (Integer (-3)); Const (Integer 2)] [] =
       Returns ([Const (Integer 1)], []).
Proof.
  split; [reflexivity|]. split; [reflexivity|].
  exact (integer_power_evaluation [] [] (Const (Integer 2))
           (Const (Integer (-3))) 2 (-3) eq_refl eq_refl).
Defined.

Lemma identity_evaluation_witness :
  Variable_value (real := R) [None] 0%nat = None
  /\ eval_token (real := R) (unop Identity) [Variable_ 0%nat] [None] =
       Throws (runtime_error "Error: variable not initialized")
  /\ to_value (real := R) [Some (Integer 7)] (Variable_ 0%nat) =
       Returns (VInteger 7)
  /\ eval_token (real := R) (unop Identity) [Variable_ 0%nat]
       [Some (Integer 7)] =
       Returns ([Variable_ 0%nat], [Some (Integer 7)]).
Proof.
  split; [reflexivity|]. split.
  - exact (proj1 (identity_evaluation (real := R) [None] [])
             Identity 0%nat eq_refl).
  - split; [reflexivity|].
    exact (proj2 (identity_evaluation (real := R) [Some (Integer 7)] [])
             (Variable_ 0%nat) (VInteger 7) eq_refl).
Defined.

Lemma other_token_skipped_witness :
  is_Operand (real := R) (TPseudo LeftParenthesis) = false
  /\ is_Operation (real := R) (TPseudo LeftParenthesis) = false
  /\ eval_token (real := R) (TPseudo LeftParenthesis)
       [Const (Integer 1)] [] = Returns ([Const (Integer 1)], [])
  /\ evaluate (real := R)
       ([const (Integer 1)] ++ TPseudo LeftParenthesis :: [unop Negation]) [] =
     evaluate ([const (Integer 1)] ++ [unop Negation]) [].
Proof.
  split; [reflexivity|]. split; [reflexivity|].
  pose proof (other_token_skipped (real := R) (TPseudo LeftParenthesis)
                eq_refl eq_refl) as [Hstep Hlist].
  split; [apply Hstep|apply Hlist].
Defined.

(** C6 as the spec has it fails on ["1."]: the exception is not an
    [XBadCharacter]. *)
Lemma literal_ending_on_point_not_XBadCharacter :
  ~ exists (location : nat) (self' : @Tokenizer R) (heap' : @Heap R),
      tokenize (real := R) Tokenizer_new [] "1." =
        Some (Throws (XBadCharacter location), self', heap').
Proof.
  assert (Hcode : tokenize (real := R) Tokenizer_new [] "1." =
                    Some (Throws (XTokenizer 2 bad_character_message),
                          Tokenizer_new, []))
    by reflexivity.
  intros (location & self' & heap' & Hspec).
  rewrite Hcode in Hspec. discriminate Hspec.
Qed.

(** * Further properties *)

(** ** The tokenizer: blank input, unknown characters, offsets *)

Section TokenizerOffsets.

Context {real : Type} {host : RealHost real}.

Implicit Types (st : @LexState real) (self : @Tokenizer real).
Implicit Types (heap : @Heap real) (expr cs : list ascii).

(** X1. An expression made of whitespace only, the empty one included, has
    no token: [tokenize] returns the empty list, throws nothing and leaves
    the tokenizer and the heap as they were. *)
Theorem tokenize_blank self heap (expression : string) :
  Forall (fun c => isspace c = true) (list_ascii_of_string expression) ->
  tokenize self heap expression = Some (Returns [], self, heap).
Proof.
  intros Hblank. unfold tokenize. cbn [tokenize_loop].
  unfold tokenize_step. cbn [remaining tokenize_start].
  by rewrite (span_end _ _ Hblank).
Qed.

(** X2. A character that is not whitespace and starts no token (it is not
    a digit, a letter or one of [< > = ! * / % ( ) , + -]) stops the
    tokenizer with an [XBadCharacter] that carries the offset of the
    character, the whitespace before it counted. *)
Theorem unknown_character st (fuel : nat) (spaces : list ascii)
    (c : ascii) cs :
  Forall (fun x => isspace x = true) spaces ->
  isspace c = false ->
  token_start c = false ->
  remaining st = spaces ++ c :: cs ->
  tokenize_loop (S fuel) st =
    Some (Throws (XBadCharacter (currentChar st + length spaces)),
          self st, heap st).
Proof.
  intros Hspaces Hspace Hstart Hremaining. cbn [tokenize_loop].
  unfold tokenize_step.
  rewrite Hremaining, (span_stop isspace spaces c cs Hspaces Hspace).
  unfold token_start in Hstart.
  repeat (apply orb_false_iff in Hstart as [Hstart ?]).
  repeat match goal with H : _ = false |- _ => rewrite H; clear H end.
  reflexivity.
Qed.

Lemma span_lengths (p : ascii -> bool) (l taken rest : list ascii) :
  span p l = (taken, rest) -> (length taken + length rest = length l)%nat.
Proof. intros H. by rewrite (span_app _ _ _ _ H), length_app. Qed.

Lemma _get_number_consumed (pos : nat) (c : ascii) cs
    (number : Token real) (consumed : nat) (rest : list ascii) :
  isdigit c = true ->
  _get_number pos (c :: cs) = Returns (number, consumed, rest) ->
  (consumed + length rest = S (length cs))%nat.
Proof.
  intros Hc. unfold _get_number. cbn [span]. rewrite Hc.
  destruct (span isdigit cs) as [digits rest0] eqn:Hdigits.
  apply span_lengths in Hdigits.
  destruct rest0 as [|d rest1];
    [intros [= <- <- <-]; cbn [length] in *; lia|].
  destruct (negb (Ascii.eqb d "."));
    [intros [= <- <- <-]; cbn [length] in *; lia|].
  destruct rest1 as [|d' rest2]; [discriminate|].
  destruct (isdigit d'); [|discriminate].
  destruct (span isdigit (d' :: rest2)) as [fraction rest'] eqn:Hfraction.
  apply span_lengths in Hfraction. intros [= <- <- <-].
  cbn [length] in *. lia.
Qed.

Lemma _get_number_throws (pos : nat) (c : ascii) cs (e : exception) :
  isdigit c = true ->
  _get_number (real := real) pos (c :: cs) = Throws e ->
  exists k, e = XTokenizer (pos + k) bad_character_message
            /\ (k <= S (length cs))%nat.
Proof.
  intros Hc. unfold _get_number. cbn [span]. rewrite Hc.
  destruct (span isdigit cs) as [digits rest0] eqn:Hdigits.
  apply span_lengths in Hdigits.
  destruct rest0 as [|d rest1]; [discriminate|].
  destruct (negb (Ascii.eqb d ".")); [discriminate|].
  assert (Hk : (length (c :: digits) + 1 <= S (length cs))%nat)
    by (cbn [length] in *; lia).
  destruct rest1 as [|d' rest2].
  - intros [= <-]. exists (length (c :: digits) + 1)%nat.
    split; [f_equal; cbn [length]; lia|done].
  - destruct (isdigit d').
    + by destruct (span isdigit (d' :: rest2)).
    + intros [= <-]. exists (length (c :: digits) + 1)%nat.
      split; [f_equal; cbn [length]; lia|done].
Qed.

Lemma _get_identifier_consumed self heap (c : ascii) cs
    (token : Token real) (consumed : nat) (rest : list ascii)
    self' heap' :
  _get_identifier self heap (c :: cs) = (token, consumed, rest, self', heap') ->
  (consumed + length rest = S (length cs))%nat.
Proof.
  unfold _get_identifier.
  destruct (span isalnum cs) as [more rest0] eqn:Hmore.
  apply span_lengths in Hmore.
  destruct (keywords_m self !! _); [intros [= <- <- <- <- <-]; lia|].
  destruct (variables_m self !! _); intros [= <- <- <- <- <-]; lia.
Qed.

(** The offset and the characters left always add up to the same length. *)
Lemma tokenize_step_offset st st' :
  tokenize_step st = Continue st' ->
  (currentChar st' + length (remaining st')
   = currentChar st + length (remaining st))%nat.
Proof.
  intros H. unfold tokenize_step, emit in H.
  repeat (case_match; try discriminate H; simplify_eq);
    cbn [remaining currentChar];
    repeat match goal with
      | H : span _ _ = _ |- _ => apply span_lengths in H
      | H : _get_number _ _ = _ |- _ =>
          apply _get_number_consumed in H; [|done]
      | H : _get_identifier _ _ _ = _ |- _ =>
          apply _get_identifier_consumed in H
      | H : _ && next_is _ ?l = true |- _ =>
          apply andb_true_iff in H as [_ H]; destruct l; [discriminate H|]
      end;
    cbn [length tail] in *; lia.
Qed.

Lemma tokenize_step_raise st (e : exception) :
  tokenize_step st = Raise e ->
  exists loc, location e = Some loc
              /\ (loc <= currentChar st + length (remaining st))%nat.
Proof.
  intros H. unfold tokenize_step, emit, expect_function_paren in H.
  repeat (case_match; try discriminate H; simplify_eq);
    repeat match goal with
      | H : span _ _ = _ |- _ => apply span_lengths in H
      | H : _get_number _ _ = Throws _ |- _ =>
          apply _get_number_throws in H as (k & -> & H); [|done]
      | H : _get_identifier _ _ _ = _ |- _ =>
          apply _get_identifier_consumed in H
      end;
    cbn [location length] in *; eexists; (split; [reflexivity|lia]).
Qed.

Lemma tokenize_loop_location (fuel total : nat) st
    (e : exception) self' heap' :
  (currentChar st + length (remaining st) = total)%nat ->
  tokenize_loop fuel st = Some (Throws e, self', heap') ->
  exists loc, location e = Some loc /\ (loc <= total)%nat.
Proof.
  revert st. induction fuel as [|fuel IH]; intros st Htotal; [done|].
  cbn [tokenize_loop].
  destruct (tokenize_step st) as [|st1|e1] eqn:Hstep.
  - discriminate.
  - apply IH. by rewrite (tokenize_step_offset _ _ Hstep).
  - intros [= <- <- <-]. rewrite <- Htotal. by apply tokenize_step_raise.
Qed.

(** X3. Whatever [tokenize] throws is an [XTokenizer] or an [XBadCharacter]
    whose offset lies within the expression: it is at most the length of the
    expression (the end, for a token cut short by the end). *)
Theorem tokenize_error_location self heap (expression : string)
    (e : exception) self' heap' :
  tokenize self heap expression = Some (Throws e, self', heap') ->
  exists loc,
    (e = XBadCharacter loc \/ exists what, e = XTokenizer loc what)
    /\ (loc <= String.length expression)%nat.
Proof.
  intros H.
  apply (tokenize_loop_location _ (String.length expression)) in H
    as (loc & Hloc & Hle).
  - exists loc. split; [|done].
    destruct e; try discriminate Hloc; injection Hloc as ->; eauto.
  - cbn [tokenize_start currentChar remaining].
    by rewrite list_ascii_length.
Qed.

End TokenizerOffsets.

(** ** The tokenizer: its dictionaries *)

Section TokenizerRegistry.

Context {real : Type} {host : RealHost real}.

Implicit Types (st : @LexState real) (self : @Tokenizer real).
Implicit Types (heap : @Heap real) (expr cs : list ascii).

(** What [_get_identifier] does to the tokenizer: nothing, or the
    registration of a name that was not bound, with a new empty slot. *)
Lemma _get_identifier_registers self heap (c : ascii) cs
    (token : Token real) (consumed : nat) (rest : list ascii)
    self' heap' :
  _get_identifier self heap (c :: cs) = (token, consumed, rest, self', heap') ->
  (self' = self /\ heap' = heap)
  \/ (exists ident : string,
        variables_m self !! ident = None
        /\ keywords_m self' = keywords_m self
        /\ variables_m self' =
             <[ident := var (length heap)]> (variables_m self)
        /\ heap' = heap ++ [None]).
Proof.
  unfold _get_identifier.
  destruct (span isalnum cs) as [more rest0].
  destruct (keywords_m self !! _); [intros [= <- <- <- <- <-]; auto|].
  destruct (variables_m self !! _) eqn:Hvar;
    intros [= <- <- <- <- <-]; [auto|].
  right. eexists. by repeat split.
Qed.

Lemma tokenize_step_registers st st' :
  tokenize_step st = Continue st' ->
  (self st' = self st /\ heap st' = heap st)
  \/ (exists ident : string,
        variables_m (self st) !! ident = None
        /\ keywords_m (self st') = keywords_m (self st)
        /\ variables_m (self st') =
             <[ident := var (length (heap st))]> (variables_m (self st))
        /\ heap st' = heap st ++ [None]).
Proof.
  intros H. unfold tokenize_step, emit in H.
  repeat (case_match; try discriminate H; simplify_eq);
    cbn [self heap]; auto.
  all: match goal with
       | H : _get_identifier _ _ _ = _ |- _ =>
           by apply _get_identifier_registers in H
       end.
Qed.

(** A property of the tokenizer and the heap that every turn keeps holds
    of what [tokenize_loop] leaves. *)
Lemma tokenize_loop_keeps (P : @Tokenizer real -> @Heap real -> Prop) :
  (forall st st', tokenize_step st = Continue st' ->
                  P (self st) (heap st) -> P (self st') (heap st')) ->
  forall (fuel : nat) st (r : outcome (TokenList real)) self' heap',
    tokenize_loop fuel st = Some (r, self', heap') ->
    P (self st) (heap st) -> P self' heap'.
Proof.
  intros Hkeeps fuel. induction fuel as [|fuel IH]; intros st r self' heap';
    [done|].
  cbn [tokenize_loop].
  destruct (tokenize_step st) as [|st1|e] eqn:Hstep.
  - by intros [= <- <- <-].
  - intros Hloop HP. eapply IH; [exact Hloop|]. by eapply Hkeeps.
  - by intros [= <- <- <-].
Qed.

(** X4. Whether it returns or throws, [tokenize] leaves the keywords as they
    were, keeps every variable binding it found (a name never changes its
    variable) and only extends the heap, by empty slots. *)
Theorem tokenize_extends self heap (expression : string)
    (r : outcome (TokenList real)) self' heap' :
  tokenize self heap expression = Some (r, self', heap') ->
  keywords_m self' = keywords_m self
  /\ variables_m self ⊆ variables_m self'
  /\ exists n : nat, heap' = heap ++ replicate n None.
Proof.
  intros H.
  apply (tokenize_loop_keeps
           (fun s h => keywords_m s = keywords_m self
                       /\ variables_m self ⊆ variables_m s
                       /\ exists n : nat, h = heap ++ replicate n None))
    in H; [exact H| |].
  - intros st st' Hstep (Hkeys & Hvars & n & Hheap).
    destruct (tokenize_step_registers _ _ Hstep)
      as [[-> ->]|(ident & Hfree & Hkeys' & Hvars' & Hheap')].
    + eauto.
    + rewrite Hkeys', Hvars', Hheap', Hheap. repeat split; [done| |].
      * etrans; [exact Hvars|]. by apply insert_subseteq.
      * exists (S n). rewrite <- app_assoc. f_equal.
        change [None] with (replicate 1 (@None (Constant real))).
        rewrite <- replicate_add. f_equal. lia.
  - cbn. repeat split; [done|]. exists 0%nat. by rewrite app_nil_r.
Qed.

(** X5. [tokenize] keeps the registry sound: if every name is bound to a
    variable whose slot is in the heap and no two names share a variable,
    the same holds afterwards, so two different names never read or write
    the same slot. *)
Theorem tokenize_registry_ok self heap (expression : string)
    (r : outcome (TokenList real)) self' heap' :
  registry_ok self heap ->
  tokenize self heap expression = Some (r, self', heap') ->
  registry_ok self' heap'.
Proof.
  intros Hok H.
  apply (tokenize_loop_keeps registry_ok) in H; [exact H| |exact Hok].
  clear. intros st st' Hstep Hok.
  destruct (tokenize_step_registers _ _ Hstep)
    as [[-> ->]|(ident & Hfree & _ & Hvars' & Hheap')]; [done|].
  unfold registry_ok. rewrite Hvars', Hheap', length_app. cbn [length].
  intros name token Hname.
  destruct (decide (ident = name)) as [->|Hne].
  - rewrite lookup_insert_eq in Hname. injection Hname as <-.
    eexists. split; [reflexivity|]. split; [lia|].
    intros name' Hname'.
    destruct (decide (name = name')) as [|Hne']; [done|].
    rewrite lookup_insert_ne in Hname' by done.
    destruct (Hok _ _ Hname') as (h & [= Hh] & Hlt & _). lia.
  - rewrite lookup_insert_ne in Hname by done.
    destruct (Hok _ _ Hname) as (h & -> & Hlt & Hinj).
    exists h. split; [done|]. split; [lia|].
    intros name' Hname'.
    destruct (decide (ident = name')) as [<-|Hne'].
    + rewrite lookup_insert_eq in Hname'. injection Hname' as Hh. lia.
    + rewrite lookup_insert_ne in Hname' by done. by apply Hinj.
Qed.

End TokenizerRegistry.

(** ** The tokenizer: binary literals and the exclamation mark *)

Section TokenizerLiterals.

Context {real : Type} {host : RealHost real}.

Implicit Types (st : @LexState real) (cs bits rest : list ascii).

Lemma span_exact (p : ascii -> bool) (taken rest : list ascii) :
  Forall (fun x => p x = true) taken ->
  from_option p false (head rest) = false ->
  span p (taken ++ rest) = (taken, rest).
Proof.
  intros Htaken Hrest. destruct rest as [|c rest].
  - rewrite app_nil_r. by apply span_end.
  - by apply span_stop.
Qed.

Lemma binary_value_snoc bits (c : ascii) :
  binary_value (bits ++ [c]) =
    2 * binary_value bits + Z.b2z (Ascii.eqb c "1").
Proof.
  unfold binary_value. rewrite foldl_snoc, Z.shiftl_mul_pow2 by lia.
  destruct (Ascii.eqb c "1"); cbn [Z.b2z]; lia.
Qed.

Lemma binary_value_bounds bits :
  0 <= binary_value bits < 2 ^ Z.of_nat (length bits).
Proof.
  induction bits as [|c bits IH] using rev_ind; [done|].
  rewrite binary_value_snoc, length_app, Nat2Z.inj_add, Z.pow_add_r by lia.
  cbn [length]. change (2 ^ Z.of_nat 1) with 2.
  destruct (Ascii.eqb c "1"); cbn [Z.b2z]; lia.
Qed.

Lemma binary_value_testbit bits (i : nat) :
  Z.testbit (binary_value bits) (Z.of_nat i) =
    from_option (fun c => Ascii.eqb c "1") false (rev bits !! i).
Proof.
  revert i. induction bits as [|c bits IH] using rev_ind; intros i.
  - cbn. apply Z.testbit_0_l.
  - rewrite binary_value_snoc, rev_app_distr. cbn [rev app].
    destruct i as [|i].
    + apply Z.testbit_0_r.
    + rewrite Nat2Z.inj_succ, Z.testbit_succ_r by lia. apply IH.
Qed.

(** X6. A binary literal, ["0b"] or ["0B"] and at least one binary digit,
    makes one [Integer] token and takes all the binary digits that follow;
    the digits are read most significant first: bit [i] of the value is the
    [i]-th digit from the end, and the value is below [2 ^ n] for [n]
    digits. *)
Theorem binary_literal st (spaces : list ascii) (b : ascii) bits rest :
  Forall (fun x => isspace x = true) spaces ->
  b = "b"%char \/ b = "B"%char ->
  bits <> [] ->
  Forall (fun x => is_bit x = true) bits ->
  from_option is_bit false (head rest) = false ->
  remaining st = spaces ++ "0"%char :: b :: bits ++ rest ->
  exists value : Z,
    tokenize_step st =
      Continue {| currentChar := currentChar st + length spaces + 2
                                 + length bits;
                  remaining := rest;
                  prev := PrevCategory.Operand;
                  tokenizedExpression :=
                    tokenizedExpression st ++ [const (Integer value)];
                  self := self st; heap := heap st |}
    /\ 0 <= value < 2 ^ Z.of_nat (length bits)
    /\ forall i : nat,
         Z.testbit value (Z.of_nat i) =
           from_option (fun c => Ascii.eqb c "1") false (rev bits !! i).
Proof.
  intros Hspaces Hb Hne Hbits Hrest Hremaining.
  exists (binary_value bits).
  split; [|split; [apply binary_value_bounds|apply binary_value_testbit]].
  unfold tokenize_step.
  rewrite Hremaining, (span_stop isspace spaces "0" _ Hspaces eq_refl).
  cbn [isdigit]. change (isdigit "0") with true. cbv iota.
  assert (Hprefix : Ascii.eqb "0" "0" && (Ascii.eqb b "b" || Ascii.eqb b "B")
                    = true) by (by destruct Hb as [-> | ->]).
  rewrite Hprefix, (span_exact is_bit bits rest Hbits Hrest).
  by destruct bits.
Qed.

(** X7. ["0b"] or ["0B"] with no binary digit after it is an error, not the
    integer zero followed by an identifier: [tokenize] throws an
    [XTokenizer] at the offset just after the letter. *)
Theorem binary_literal_without_digits st (fuel : nat)
    (spaces : list ascii) (b : ascii) rest :
  Forall (fun x => isspace x = true) spaces ->
  b = "b"%char \/ b = "B"%char ->
  from_option is_bit false (head rest) = false ->
  remaining st = spaces ++ "0"%char :: b :: rest ->
  tokenize_loop (S fuel) st =
    Some (Throws (XTokenizer (currentChar st + length spaces + 2)
                    "Tokenizer::Bad character in expression."),
          self st, heap st).
Proof.
  intros Hspaces Hb Hrest Hremaining. cbn [tokenize_loop].
  unfold tokenize_step.
  rewrite Hremaining, (span_stop isspace spaces "0" _ Hspaces eq_refl).
  change (isdigit "0") with true. cbv iota.
  assert (Hprefix : Ascii.eqb "0" "0" && (Ascii.eqb b "b" || Ascii.eqb b "B")
                    = true) by (by destruct Hb as [-> | ->]).
  rewrite Hprefix.
  change rest with ([] ++ rest) at 1.
  by rewrite (span_exact is_bit [] rest (List.Forall_nil _) Hrest).
Qed.

(** X8. Wherever the tokenizer stands in an input, an exclamation mark
    followed by ["="] is always [Inequality], also right after an operand
    (["5!=3"] has no factorial).  Otherwise it is [Factorial] when the last
    token emitted is an operand, a right parenthesis or a factorial, and an
    [XTokenizer] at the offset of the mark, with "Factorial must follow
    Expression", when it is not: at the start, where no token has been
    emitted, or after a binary operator, [Identity], [Negation], [Not], a
    function, a left parenthesis or an argument separator. *)
Theorem exclamation_mark self heap (expression : string) st
    (spaces : list ascii) cs :
  reaches (tokenize_start self heap expression) st ->
  Forall (fun x => isspace x = true) spaces ->
  remaining st = spaces ++ "!"%char :: cs ->
  let pos := (currentChar st + length spaces)%nat in
  (forall cs', cs = "="%char :: cs' ->
     tokenize_step st = emit st (pos + 2) cs' (binop Inequality))
  /\ (from_option (Ascii.eqb "=") false (head cs) = false ->
      tokenize_step st =
        match last (tokenizedExpression st) with
        | Some (TOperand _)
        | Some (TOperation (Op (Unary (Postfix _))))
        | Some (TPseudo RightParenthesis) =>
            emit st (pos + 1) cs (postfix Factorial)
        | _ => Raise (XTokenizer pos "Factorial must follow Expression")
        end).
Proof.
  intros Hreach Hspaces Hremaining pos.
  pose proof (reaches_prev _ _ _ _ Hreach) as Hprev.
  pose proof (follows_expression_kinds (last (tokenizedExpression st)))
    as Hkinds.
  rewrite <- Hprev in Hkinds.
  unfold tokenize_step.
  rewrite Hremaining, (span_stop isspace spaces "!" _ Hspaces eq_refl).
  subst pos. split.
  - intros cs' ->. reflexivity.
  - intros Hnext.
    assert (Hnot : next_is "=" cs = false).
    { destruct cs as [|c cs]; [done|]. cbn in *.
      by rewrite Ascii.eqb_sym. }
    cbn. rewrite Hnot. cbn.
    change (match prev st with
            | PrevCategory.Operand | PrevCategory.PostfixOp
            | PrevCategory.RightParenthesis => true
            | _ => false
            end) with (follows_expression (prev st)) in *.
    destruct (last (tokenizedExpression st))
      as [[o|[[b|[| | |p]]|f]|[| |]]|];
      cbn [ends_expression] in Hkinds; by rewrite ?Hkinds; destruct (prev st).
Qed.

End TokenizerLiterals.

(** ** The tokenizer: functions and their parenthesis *)

Section TokenizerFunctions.

Context {real : Type} {host : RealHost real}.

Implicit Types (st : @LexState real) (self : @Tokenizer real).
Implicit Types (heap : @Heap real) (cs rest : list ascii).

Lemma reaches_trans st0 st1 st2 :
  reaches st0 st1 -> reaches st1 st2 -> reaches st0 st2.
Proof.
  intros H01 H12. induction H12 as [|st st' _ IH Hstep]; [done|].
  by eapply reaches_turn.
Qed.

(** When [tokenize_loop] returns, it has gone through a state in which the
    loop breaks and whose tokens it returns. *)
Lemma tokenize_loop_returns (fuel : nat) st (tokens : TokenList real)
    self' heap' :
  tokenize_loop fuel st = Some (Returns tokens, self', heap') ->
  exists st', reaches st st' /\ tokenize_step st' = Break
              /\ tokenizedExpression st' = tokens.
Proof.
  revert st. induction fuel as [|fuel IH]; intros st; [done|].
  cbn [tokenize_loop].
  destruct (tokenize_step st) as [|st1|e] eqn:Hstep; [| |done].
  - intros [= <- <- <-]. exists st. split; [constructor|done].
  - intros (st' & Hreach & Hbreak & Htokens)%IH.
    exists st'. split; [|done].
    eapply reaches_trans; [|exact Hreach].
    eapply reaches_turn; [constructor|exact Hstep].
Qed.

Lemma tokenize_step_parenthesis st :
  before_parenthesis st ->
  exists st', tokenize_step st = Continue st'
              /\ tokenizedExpression st' =
                   tokenizedExpression st ++ [TPseudo LeftParenthesis]
              /\ prev st' = PrevCategory.Other.
Proof.
  intros (spaces & rest & Hspaces & Hremaining). unfold tokenize_step.
  rewrite Hremaining, (span_stop isspace spaces "(" _ Hspaces eq_refl).
  cbn. eauto.
Qed.

(** Every turn adds one token, and stands before a left parenthesis if the
    token is a function. *)
Lemma tokenize_step_emits st st' :
  tokenize_step st = Continue st' ->
  exists token,
    tokenizedExpression st' = tokenizedExpression st ++ [token]
    /\ (is_Function token = true -> before_parenthesis st').
Proof.
  intros H. unfold tokenize_step, emit in H.
  repeat (case_match; try discriminate H; simplify_eq);
    cbn [tokenizedExpression];
    (eexists; split; [reflexivity|]); try (intros [=]; fail).
  all: first
    [ match goal with
      | H : _get_number _ _ = _ |- _ =>
          apply _get_number_returns in H as [_ H]; [|done]
      end;
      intros Hf;
      match goal with H : is_Operand ?t = true |- _ => by destruct t end
    | match goal with
      | H : expect_function_paren _ _ = Returns _ |- _ =>
          intros _; unfold expect_function_paren in H;
          repeat (case_match; simplify_eq)
      end;
      match goal with
      | H : span isspace _ = _ |- _ =>
          pose proof (span_taken _ _ _ _ H) as Hspaces;
          apply span_app in H as ->
      end;
      match goal with
      | H : next_is _ ?l = true |- _ =>
          destruct l as [|c l]; [discriminate H|];
          apply Ascii.eqb_eq in H as ->
      end;
      do 2 eexists; split; [exact Hspaces|reflexivity]
    | congruence ].
Qed.

(** X9. In the tokens of an input the tokenizer accepts, every function
    token is directly followed by a left parenthesis: a function name
    without its parenthesis never gets through to the parser. *)
Theorem function_then_parenthesis self heap (expression : string)
    (tokens : TokenList real) self' heap' :
  tokenize self heap expression = Some (Returns tokens, self', heap') ->
  forall (i : nat) (token : Token real),
    tokens !! i = Some token -> is_Function token = true ->
    tokens !! S i = Some (TPseudo LeftParenthesis).
Proof.
  intros (st & Hreach & Hbreak & <-)%tokenize_loop_returns.
  assert (Hinv :
    (forall i token,
       tokenizedExpression st !! i = Some token -> is_Function token = true ->
       (S i < length (tokenizedExpression st))%nat ->
       tokenizedExpression st !! S i = Some (TPseudo LeftParenthesis))
    /\ (forall token,
          last (tokenizedExpression st) = Some token ->
          is_Function token = true -> before_parenthesis st)).
  { clear Hbreak.
    induction Hreach as [|st1 st2 _ [IHin IHlast] Hstep]; [by split|].
    destruct (tokenize_step_emits _ _ Hstep) as (t & Htokens & Hparen).
    assert (Hlast : forall token,
              last (tokenizedExpression st1) = Some token ->
              is_Function token = true -> t = TPseudo LeftParenthesis).
    { intros token Htoken Hf.
      destruct (tokenize_step_parenthesis _ (IHlast _ Htoken Hf))
        as (st2' & Hstep' & Htokens' & _).
      rewrite Hstep in Hstep'. injection Hstep' as <-.
      rewrite Htokens in Htokens'. by apply app_inj_tail in Htokens' as [_ ?]. }
    rewrite Htokens. unfold TokenList in *. split.
    - intros i token Hi Hf Hlt. rewrite length_app in Hlt. cbn in Hlt.
      rewrite lookup_app_l in Hi by lia.
      destruct (decide (S i < length (tokenizedExpression st1))%nat)
        as [Hin|Hout].
      + rewrite lookup_app_l by lia. by eapply IHin.
      + rewrite lookup_app_r by lia.
        replace (S i - length (tokenizedExpression st1))%nat with 0%nat
          by lia.
        cbn. f_equal. apply (Hlast token); [|done].
        rewrite last_lookup, <- Hi. f_equal. lia.
    - intros token. rewrite last_snoc. intros [= <-]. exact Hparen. }
  destruct Hinv as [Hin Hlast]. intros i token Hi Hf.
  destruct (decide (S i < length (tokenizedExpression st))%nat)
    as [Hlt|Hge]; [by eapply Hin|].
  exfalso.
  pose proof (lookup_lt_Some _ _ _ Hi) as Hlen.
  assert (Hl : last (tokenizedExpression st) = Some token).
  { rewrite last_lookup, <- Hi. f_equal. lia. }
  destruct (tokenize_step_parenthesis _ (Hlast _ Hl Hf)) as (? & Hstep & _).
  congruence.
Qed.

End TokenizerFunctions.

Section TokenizerFunctionErrors.

Context {real : Type} {host : RealHost real}.

Implicit Types (st : @LexState real) (cs rest : list ascii).

Lemma isalpha_only (c : ascii) :
  isalpha c = true ->
  isspace c = false /\ isdigit c = false /\ token_start c = true
  /\ Ascii.eqb c "<" = false /\ Ascii.eqb c ">" = false
  /\ Ascii.eqb c "=" = false /\ Ascii.eqb c "!" = false
  /\ Ascii.eqb c "*" = false /\ Ascii.eqb c "/" = false
  /\ Ascii.eqb c "%" = false /\ Ascii.eqb c "(" = false
  /\ Ascii.eqb c ")" = false /\ Ascii.eqb c "," = false
  /\ Ascii.eqb c "+" = false /\ Ascii.eqb c "-" = false.
Proof.
  destruct c as [[] [] [] [] [] [] [] []]; intros H;
    try discriminate H; repeat split.
Qed.

(** A turn of the loop that finds a letter reads an identifier. *)
Lemma tokenize_step_identifier st (spaces : list ascii) (c : ascii) cs :
  Forall (fun x => isspace x = true) spaces ->
  isalpha c = true ->
  remaining st = spaces ++ c :: cs ->
  tokenize_step st =
    let pos := (currentChar st + length spaces)%nat in
    let '(identToken, consumed, rest, self', heap') :=
      _get_identifier (self st) (heap st) (c :: cs) in
    match (if is_Function identToken
           then expect_function_paren (pos + consumed) rest
           else Returns ()) with
    | Returns _ =>
        Continue {| currentChar := pos + consumed; remaining := rest;
                    prev := classify_prev (Some identToken);
                    tokenizedExpression :=
                      tokenizedExpression st ++ [identToken];
                    self := self'; heap := heap' |}
    | Throws e => Raise e
    end.
Proof.
  intros Hspaces Hc Hremaining.
  destruct (isalpha_only c Hc)
    as (Hspace & Hdigit & _ & H1 & H2 & H3 & H4 & H5 & H6 & H7 & H8 & H9
        & H10 & H11 & H12).
  unfold tokenize_step.
  rewrite Hremaining, (span_stop isspace spaces c cs Hspaces Hspace).
  rewrite Hdigit, H1, H2, H3, H4, H5, H6, H7, H8, H9, H10, H11, H12, Hc.
  reflexivity.
Qed.

(** X10. A name bound to a function token that is not followed, after any
    whitespace, by a left parenthesis stops the tokenizer with an
    [XTokenizer] "Function not followed by (", at the offset of the first
    character after that whitespace; the tokenizer and the heap are left as
    they were. *)
Theorem function_without_parenthesis st (fuel : nat)
    (spaces more spaces' rest : list ascii) (c : ascii)
    (token : Token real) :
  Forall (fun x => isspace x = true) spaces ->
  isalpha c = true ->
  Forall (fun x => isalnum x = true) more ->
  from_option isalnum false (head (spaces' ++ rest)) = false ->
  Forall (fun x => isspace x = true) spaces' ->
  from_option (fun x => isspace x || Ascii.eqb x "(") false (head rest)
    = false ->
  keywords_m (self st) !! string_of_list_ascii (c :: more) = Some token ->
  is_Function token = true ->
  remaining st = spaces ++ c :: more ++ spaces' ++ rest ->
  tokenize_loop (S fuel) st =
    Some (Throws (XTokenizer (currentChar st + length spaces
                              + S (length more) + length spaces')
                    "Function not followed by ("),
          self st, heap st).
Proof.
  intros Hspaces Hc Hmore Hstop Hspaces' Hrest Hkey Hfun Hremaining.
  cbn [tokenize_loop].
  rewrite (tokenize_step_identifier st spaces c _ Hspaces Hc Hremaining).
  unfold _get_identifier.
  rewrite (span_exact isalnum more _ Hmore Hstop), Hkey. cbn zeta.
  rewrite Hfun. unfold expect_function_paren.
  assert (Hspace : from_option isspace false (head rest) = false).
  { destruct rest as [|x rest]; [done|]. cbn in *.
    by apply orb_false_iff in Hrest as [? _]. }
  assert (Hparen : next_is "(" rest = false).
  { destruct rest as [|x rest]; [done|]. cbn in *.
    by apply orb_false_iff in Hrest as [_ ?]. }
  rewrite (span_exact isspace spaces' rest Hspaces' Hspace), Hparen.
  reflexivity.
Qed.

(** X11. Every spelling listed in the constructor of the tokenizer is bound
    to the token listed with it: no spelling is overwritten by another
    keyword, and the dictionary holds the 92 spellings and nothing else. *)
Theorem keyword_spellings :
  Forall (fun entry : list string * Token real =>
            Forall (fun spelling =>
                      keywords_m Tokenizer_new !! spelling = Some entry.2)
                   entry.1)
         keyword_table
  /\ size (keywords_m (real := real) Tokenizer_new) = 92%nat
  /\ variables_m (real := real) Tokenizer_new = ∅.
Proof.
  split; [|split; reflexivity].
  unfold keyword_table. repeat constructor.
Qed.

End TokenizerFunctionErrors.

(** ** The parser: parentheses *)

Section ParserParentheses.

Context {real : Type}.

Implicit Types (token top : Token real).
Implicit Types (output opStack infixTokens : TokenList real).

Lemma pop_to_LeftParenthesis_depth output opStack output' opStack' :
  pop_to_LeftParenthesis output opStack = (output', opStack') ->
  open_parentheses opStack' = open_parentheses opStack
  /\ match opStack' with
     | [] => True
     | top :: _ => is_LeftParenthesis top = true
     end.
Proof.
  revert output. induction opStack as [|top opStack IH]; intros output; cbn.
  - by intros [= <- <-].
  - destruct (is_LeftParenthesis top) eqn:Hleft.
    + intros [= <- <-]. cbn. by rewrite Hleft.
    + intros Hpop. by apply IH in Hpop.
Qed.

Lemma pop_operators_depth token output opStack output' opStack' :
  pop_operators token output opStack = (output', opStack') ->
  open_parentheses opStack' = open_parentheses opStack.
Proof.
  revert output. induction opStack as [|top opStack IH]; intros output; cbn.
  - by intros [= <- <-].
  - destruct (is_Operator top) eqn:Hop; [|by intros [= <- <-]].
    destruct (pops_before top token); [|by intros [= <- <-]].
    intros Hpop%IH. by destruct top as [|[[]|]|[]].
Qed.

(** One token against the nesting: a right parenthesis with nothing open
    throws, every other case returns with the nesting the token gives. *)
Lemma parse_token_depth token output opStack :
  match paren_depth [token] (open_parentheses opStack) with
  | None => parse_token token output opStack = Throws unmatched_right
  | Some depth =>
      exists output' opStack',
        parse_token token output opStack = Returns (output', opStack')
        /\ open_parentheses opStack' = depth
  end.
Proof.
  destruct token as [o|[op|f]|[]]; cbn -[pop_operators pop_to_LeftParenthesis].
  - eauto.
  - destruct (pop_operators (TOperation (Op op)) output opStack)
      as [output' opStack'] eqn:Hpop.
    apply pop_operators_depth in Hpop. eauto.
  - eauto.
  - eauto.
  - destruct (pop_to_LeftParenthesis output opStack)
      as [output' opStack'] eqn:Hpop.
    apply pop_to_LeftParenthesis_depth in Hpop as [Hdepth Htop].
    rewrite <- Hdepth.
    destruct opStack' as [|top [|below opStack']]; cbn in *; [done|..].
    + rewrite Htop. cbn. eauto.
    + rewrite Htop. cbn.
      destruct (is_Function below) eqn:Hf; eexists _, _; (split; [done|]).
      * by destruct below as [|[|]|[]].
      * done.
  - destruct (pop_to_LeftParenthesis output opStack)
      as [output' opStack'] eqn:Hpop.
    apply pop_to_LeftParenthesis_depth in Hpop as [Hdepth _]. eauto.
Qed.

Lemma parse_loop_depth infixTokens output opStack :
  match paren_depth infixTokens (open_parentheses opStack) with
  | None => parse_loop infixTokens output opStack = Throws unmatched_right
  | Some depth =>
      exists output' opStack',
        parse_loop infixTokens output opStack = Returns (output', opStack')
        /\ open_parentheses opStack' = depth
  end.
Proof.
  revert output opStack.
  induction infixTokens as [|token rest IH]; intros output opStack.
  - cbn. eauto.
  - pose proof (parse_token_depth token output opStack) as Htoken.
    cbn [paren_depth parse_loop] in *.
    destruct (is_LeftParenthesis token);
      [|destruct (is_RightParenthesis token);
        [destruct (open_parentheses opStack)|]].
    all: try (destruct Htoken as (output1 & opStack1 & -> & <-); apply IH).
    by rewrite Htoken.
Qed.

Lemma drain_depth output opStack :
  match open_parentheses opStack with
  | O => exists rpn, drain output opStack = Returns rpn
  | S _ => drain output opStack = Throws missing_right
  end.
Proof.
  revert output. induction opStack as [|top opStack IH]; intros output; cbn.
  - eauto.
  - destruct (is_LeftParenthesis top); cbn; [done|apply IH].
Qed.

(** X12. [parse] returns exactly when the parentheses of its input are
    balanced, whatever the other tokens.  A right parenthesis with no left
    one open throws "Right parenthesis has no matching left parenthesis";
    left parentheses still open at the end throw "Missing
    right-parenthesis". *)
Theorem parse_parentheses infixTokens :
  match paren_depth infixTokens 0 with
  | None => parse infixTokens = Throws unmatched_right
  | Some O => exists rpn, parse infixTokens = Returns rpn
  | Some (S _) => parse infixTokens = Throws missing_right
  end.
Proof.
  unfold parse.
  pose proof (parse_loop_depth infixTokens [] []) as Hloop. cbn in Hloop.
  destruct (paren_depth infixTokens 0) as [depth|]; [|by rewrite Hloop].
  destruct Hloop as (output & opStack & -> & Hdepth). cbn.
  pose proof (drain_depth output opStack) as Hdrain.
  rewrite Hdepth in Hdrain. by destruct depth.
Qed.

End ParserParentheses.

(** ** The parser: what the output is made of *)

Section ParserContent.

Context {real : Type}.

Implicit Types (token top : Token real).
Implicit Types (output opStack infixTokens rpn moved : list (Token real)).

(** Popping moves tokens from the top of the stack to the end of the
    output, in the order in which they leave the stack. *)
Lemma pop_to_LeftParenthesis_moves output opStack output' opStack' :
  pop_to_LeftParenthesis output opStack = (output', opStack') ->
  exists moved, opStack = moved ++ opStack' /\ output' = output ++ moved.
Proof.
  revert output. induction opStack as [|top opStack IH]; intros output; cbn.
  - intros [= <- <-]. exists []; split; [done|by rewrite app_nil_r].
  - destruct (is_LeftParenthesis top).
    + intros [= <- <-]. exists []; split; [done|by rewrite app_nil_r].
    + intros (moved & -> & ->)%IH. exists (top :: moved).
      by rewrite <- app_assoc.
Qed.

Lemma pop_operators_moves token output opStack output' opStack' :
  pop_operators token output opStack = (output', opStack') ->
  exists moved, opStack = moved ++ opStack' /\ output' = output ++ moved.
Proof.
  revert output. induction opStack as [|top opStack IH]; intros output; cbn.
  - intros [= <- <-]. exists []; split; [done|by rewrite app_nil_r].
  - destruct (is_Operator top);
      [|intros [= <- <-]; exists []; split; [done|by rewrite app_nil_r]].
    destruct (pops_before top token);
      [|intros [= <- <-]; exists []; split; [done|by rewrite app_nil_r]].
    intros (moved & -> & ->)%IH. exists (top :: moved).
    by rewrite <- app_assoc.
Qed.

Lemma drain_app output opStack rpn :
  drain output opStack = Returns rpn ->
  rpn = output ++ opStack
  /\ Forall (fun t => is_LeftParenthesis t = false) opStack.
Proof.
  revert output. induction opStack as [|top opStack IH]; intros output; cbn.
  - intros [= <-]. by rewrite app_nil_r.
  - destruct (is_LeftParenthesis top) eqn:Hleft; [done|].
    intros [-> Hall]%IH. rewrite <- app_assoc. split; [done|].
    by constructor.
Qed.

Lemma filter_cons_app (P : Token real -> Prop) `{!forall t, Decision (P t)}
    token (l : list (Token real)) :
  filter P (token :: l) = filter P [token] ++ filter P l.
Proof. change (token :: l) with ([token] ++ l). apply filter_app. Qed.

Lemma filter_singleton_not (P : Token real -> Prop)
    `{!forall t, Decision (P t)} token :
  ~ P token -> filter P [token] = [].
Proof. intros HP. by rewrite filter_cons_False. Qed.

(** The output and the stack after a token, as a multiset: what they held
    before, with the token added if it is an operand, an operator or a
    function, and a left parenthesis removed by a right one. *)
Lemma parse_token_content (P : Token real -> Prop)
    `{!forall t, Decision (P t)} token output opStack output' opStack' :
  (forall t, P t -> rpn_token t = true) ->
  parse_token token output opStack = Returns (output', opStack') ->
  filter P (output' ++ opStack')
    ≡ₚ filter P (output ++ opStack) ++ filter P [token].
Proof.
  intros Hrpn.
  assert (Hnot : forall p, filter P [TPseudo p] = []).
  { intros p. apply filter_singleton_not. by intros ?%Hrpn. }
  unfold parse_token.
  destruct token as [o|[op|f]|[]]; cbn -[pop_operators pop_to_LeftParenthesis filter].
  - intros [= <- <-]. rewrite !filter_app, <- !app_assoc.
    apply Permutation_app_head, Permutation_app_comm.
  - destruct (pop_operators (TOperation (Op op)) output opStack)
      as [output1 opStack1] eqn:Hpop.
    apply pop_operators_moves in Hpop as (moved & -> & ->).
    intros [= <- <-].
    rewrite !filter_app, filter_cons_app, <- !app_assoc.
    do 2 apply Permutation_app_head. apply Permutation_app_comm.
  - intros [= <- <-]. rewrite !filter_app, filter_cons_app, <- !app_assoc.
    apply Permutation_app_head, Permutation_app_comm.
  - intros [= <- <-]. rewrite !filter_app, filter_cons_app, Hnot.
    by rewrite app_nil_r.
  - destruct (pop_to_LeftParenthesis output opStack)
      as [output1 opStack1] eqn:Hpop.
    pose proof (pop_to_LeftParenthesis_depth _ _ _ _ Hpop) as [_ Htop].
    apply pop_to_LeftParenthesis_moves in Hpop as (moved & -> & ->).
    rewrite Hnot, app_nil_r.
    destruct opStack1 as [|paren opStack2]; [done|].
    assert (Hparen : filter P [paren] = []).
    { destruct paren as [|[|]|[]]; try discriminate Htop. apply Hnot. }
    rewrite !filter_app, (filter_cons_app _ paren), Hparen. cbn [app].
    destruct opStack2 as [|top below].
    + intros [= <- <-]. by rewrite ?filter_app, <- ?app_assoc.
    + destruct (is_Function top); intros [= <- <-];
        by rewrite ?filter_app, !(filter_cons_app _ top below),
             <- ?app_assoc.
  - intros [= Hpop].
    apply pop_to_LeftParenthesis_moves in Hpop as (moved & -> & ->).
    by rewrite Hnot, app_nil_r, <- app_assoc.
Qed.

Lemma parse_loop_content (P : Token real -> Prop)
    `{!forall t, Decision (P t)} infixTokens output opStack output' opStack' :
  (forall t, P t -> rpn_token t = true) ->
  parse_loop infixTokens output opStack = Returns (output', opStack') ->
  filter P (output' ++ opStack')
    ≡ₚ filter P (output ++ opStack) ++ filter P infixTokens.
Proof.
  intros Hrpn. revert output opStack.
  induction infixTokens as [|token rest IH]; intros output opStack;
    cbn [parse_loop].
  - intros [= <- <-]. by rewrite filter_nil, app_nil_r.
  - destruct (parse_token token output opStack)
      as [[output1 opStack1]|e] eqn:Htoken; [|done].
    intros Hloop%IH. rewrite Hloop.
    rewrite (parse_token_content P _ _ _ _ _ Hrpn Htoken).
    by rewrite (filter_cons_app _ token rest), <- app_assoc.
Qed.

Lemma filter_all (P : Token real -> Prop) `{!forall t, Decision (P t)}
    (l : list (Token real)) :
  Forall P l -> filter P l = l.
Proof.
  induction 1 as [|t l Ht _ IH]; [done|].
  by rewrite filter_cons_True, IH.
Qed.

(** X13. [parse] drops the parentheses and the argument separators and
    nothing else, and it adds nothing: the list it returns is a
    rearrangement of the operands, operators and functions of its input,
    each as often as it occurs there. *)
Theorem parse_rearranges infixTokens rpn :
  parse infixTokens = Returns rpn ->
  rpn ≡ₚ filter (fun t => rpn_token t = true) infixTokens.
Proof.
  unfold parse.
  destruct (parse_loop infixTokens [] []) as [[output opStack]|e] eqn:Hloop;
    [|done].
  cbn. intros [-> Hall]%drain_app.
  destruct (parse_loop_invariant _ _ _ _ _ Hloop) as [Houtput Hstack];
    [done..|].
  apply (parse_loop_content (fun t => rpn_token t = true)) in Hloop; [|done].
  cbn in Hloop. rewrite <- Hloop. rewrite filter_all; [done|].
  apply Forall_app. split; [done|].
  apply Forall_forall. intros t Ht.
  apply stackable_rpn;
    [exact (proj1 (Forall_forall _ _) Hstack t Ht)
    |exact (proj1 (Forall_forall _ _) Hall t Ht)].
Qed.

End ParserContent.

(** ** The parser: order and grouping *)

Section ParserOrder.

Context {real : Type} {host : RealHost real}.

Implicit Types (token top : Token real).
Implicit Types (output opStack infixTokens rpn moved : list (Token real)).

Lemma filter_operand_app_nil (l k : list (Token real)) :
  filter operand_token (l ++ k) = [] ->
  filter operand_token l = [] /\ filter operand_token k = [].
Proof. rewrite filter_app. apply app_eq_nil. Qed.

(** The stack never holds an operand, and the operands reach the output in
    the order in which they come. *)
Lemma parse_token_operands token output opStack output' opStack' :
  filter operand_token opStack = [] ->
  parse_token token output opStack = Returns (output', opStack') ->
  filter operand_token opStack' = []
  /\ filter operand_token output' = filter operand_token output ++ filter operand_token [token].
Proof.
  intros Hstack. unfold parse_token.
  destruct token as [o|[op|f]|[]];
    cbn -[pop_operators pop_to_LeftParenthesis filter].
  - intros [= <- <-]. by rewrite filter_app.
  - destruct (pop_operators (TOperation (Op op)) output opStack)
      as [output1 opStack1] eqn:Hpop.
    apply pop_operators_moves in Hpop as (moved & -> & ->).
    apply filter_operand_app_nil in Hstack as [Hmoved Hrest].
    intros [= <- <-]. rewrite filter_app, Hmoved. split; [|done].
    by rewrite filter_cons_False.
  - intros [= <- <-]. rewrite filter_cons_False by done.
    by rewrite filter_cons_False, app_nil_r.
  - intros [= <- <-]. rewrite filter_cons_False by done.
    by rewrite filter_cons_False, app_nil_r.
  - destruct (pop_to_LeftParenthesis output opStack)
      as [output1 opStack1] eqn:Hpop.
    apply pop_to_LeftParenthesis_moves in Hpop as (moved & -> & ->).
    apply filter_operand_app_nil in Hstack as [Hmoved Hrest].
    destruct opStack1 as [|paren opStack2]; [done|].
    change (paren :: opStack2) with ([paren] ++ opStack2) in Hrest.
    apply filter_operand_app_nil in Hrest as [_ Hrest].
    rewrite (filter_cons_False _ (TPseudo RightParenthesis)) by done.
    destruct opStack2 as [|top below].
    + intros [= <- <-]. by rewrite filter_app, Hmoved.
    + destruct (is_Function top) eqn:Hf; intros [= <- <-].
      * change (top :: below) with ([top] ++ below) in Hrest.
        apply filter_operand_app_nil in Hrest as [Htop Hbelow].
        by rewrite !filter_app, Hmoved, Htop, filter_nil, !app_nil_r.
      * by rewrite filter_app, Hmoved.
  - intros [= Hpop].
    apply pop_to_LeftParenthesis_moves in Hpop as (moved & -> & ->).
    apply filter_operand_app_nil in Hstack as [Hmoved Hrest].
    rewrite (filter_cons_False _ (TPseudo ArgumentSeparator)) by done.
    by rewrite filter_app, Hmoved.
Qed.

Lemma parse_loop_operands infixTokens output opStack output' opStack' :
  filter operand_token opStack = [] ->
  parse_loop infixTokens output opStack = Returns (output', opStack') ->
  filter operand_token opStack' = []
  /\ filter operand_token output' =
       filter operand_token output ++ filter operand_token infixTokens.
Proof.
  revert output opStack.
  induction infixTokens as [|token rest IH]; intros output opStack Hstack;
    cbn [parse_loop].
  - intros [= <- <-]. by rewrite filter_nil, app_nil_r.
  - destruct (parse_token token output opStack)
      as [[output1 opStack1]|e] eqn:Htoken; [|done].
    destruct (parse_token_operands _ _ _ _ _ Hstack Htoken) as [Hstack1 Hout1].
    intros [Hstack' Hout']%IH; [|done]. split; [done|].
    by rewrite Hout', Hout1, (filter_cons_app _ token rest), <- app_assoc.
Qed.

(** X14. [parse] keeps the operands in the order of the input: only the
    operators and functions move. *)
Theorem parse_keeps_operand_order infixTokens rpn :
  parse infixTokens = Returns rpn ->
  filter (fun t => is_Operand t = true) rpn =
    filter (fun t => is_Operand t = true) infixTokens.
Proof.
  unfold parse.
  destruct (parse_loop infixTokens [] []) as [[output opStack]|e] eqn:Hloop;
    [|done].
  apply parse_loop_operands in Hloop as [Hstack Houtput]; [|done].
  cbn. intros [-> _]%drain_app.
  by rewrite filter_app, Hstack, Houtput, app_nil_r.
Qed.

(** X15. [a o1 b o2 c], with operands [a], [b], [c] and any two operators:
    the first operator is applied first, [(a o1 b) o2 c], exactly when it
    passes the test of line 116 against the second, that is when it binds
    tighter, or as tightly and the second is not right-associative;
    otherwise the second is applied first, [a o1 (b o2 c)]. *)
Theorem parse_two_operators (a b c : Operand real) (o1 o2 : Operator) :
  parse [TOperand a; TOperation (Op o1); TOperand b; TOperation (Op o2);
         TOperand c] =
    Returns
      (if (precedence (real := real) (TOperation (Op o1))
           >? precedence (real := real) (TOperation (Op o2)))
          || ((precedence (real := real) (TOperation (Op o1))
               =? precedence (real := real) (TOperation (Op o2)))
              && negb (is_right_associative (real := real)
                         (TOperation (Op o2))))
       then [TOperand a; TOperand b; TOperation (Op o1); TOperand c;
             TOperation (Op o2)]
       else [TOperand a; TOperand b; TOperand c; TOperation (Op o2);
             TOperation (Op o1)]).
Proof.
  change ((precedence (real := real) (TOperation (Op o1))
           >? precedence (real := real) (TOperation (Op o2)))
          || ((precedence (real := real) (TOperation (Op o1))
               =? precedence (real := real) (TOperation (Op o2)))
              && negb (is_right_associative (real := real)
                         (TOperation (Op o2)))))
    with (pops_before (real := real) (TOperation (Op o1))
            (TOperation (Op o2))).
  unfold parse. cbn -[pops_before].
  by destruct (pops_before _ _).
Qed.

(** X16. A prefix operator is handled like a binary one when it comes in:
    it first pops what binds as tightly or tighter.  So two prefix operators
    in a row ([- - a], [not not a]) and a prefix operator after [**]
    ([a ** - b]) reach the evaluator with an operator before its operands,
    and the evaluation throws "Error: insufficient operands". *)
Theorem prefix_operator_pops (u1 u2 : UnaryOperator) (a b : Operand real)
    (heap : @Heap real) :
  is_prefix u1 = true -> is_prefix u2 = true ->
  (parse [unop u1; unop u2; TOperand a]
   = Returns [unop u1; TOperand a; unop u2]
   /\ evaluate [unop u1; TOperand a; unop u2] heap
      = (Throws (runtime_error "Error: insufficient operands"), heap))
  /\ (parse [TOperand a; binop Power; unop u1; TOperand b]
      = Returns [TOperand a; binop Power; TOperand b; unop u1]
      /\ evaluate [TOperand a; binop Power; TOperand b; unop u1] heap
         = (Throws (runtime_error "Error: insufficient operands"), heap)).
Proof.
  intros H1 H2.
  destruct u1 as [| | |p1]; try discriminate H1;
    destruct u2 as [| | |p2]; try discriminate H2; done.
Qed.

End ParserOrder.

(** ** The evaluator: stack and heap *)

Section EvaluatorStack.

Context {real : Type} {host : RealHost real}.

Implicit Types (heap : @Heap real) (stack : list (Operand real)).
Implicit Types (token : Token real) (rpn : list (Token real)).

(** Case analysis on an evaluation that returned. *)
Local Ltac returned H :=
  cbn in H; unfold arith, relational, get_real, and_then, or_else in H;
  unfold fmap, outcome_fmap, mbind, outcome_bind in H;
  repeat (case_match; cbn in H; try discriminate H);
  simplify_eq.

Lemma eval_token_effect token stack heap stack' heap' :
  eval_token token stack heap = Returns (stack', heap') ->
  Z.of_nat (length stack') = Z.of_nat (length stack) + stack_effect token
  /\ length heap' = length heap
  /\ (token <> binop Assignment -> heap' = heap).
Proof.
  intros Heval.
  destruct token as [o|[[b|u]|[f|f]]|p]; cbn [eval_token] in Heval.
  - injection Heval as <- <-. cbn [length stack_effect]. split; [lia|done].
  - destruct stack as [|rhsOp [|lhsOp stack]]; try discriminate Heval.
    unfold eval_BinaryOperator in Heval.
    destruct (to_value heap rhsOp) as [rhs|]; [|discriminate Heval].
    destruct (to_value heap lhsOp) as [lhs|]; [|discriminate Heval].
    destruct b; returned Heval; cbn [length stack_effect];
      (split; [lia|]); try done.
    unfold Variable_set, Heap. by rewrite length_insert.
  - destruct stack as [|operand stack]; [discriminate Heval|].
    unfold eval_UnaryOperator, eval_PostfixOperator in Heval.
    destruct (to_value heap operand) as [val|]; returned Heval;
      cbn [length stack_effect]; (split; [lia|done]).
  - destruct stack as [|arg stack]; [discriminate Heval|].
    unfold eval_OneArgFunction in Heval.
    destruct (to_value heap arg) as [v|]; [|discriminate Heval].
    destruct f; returned Heval; cbn [length stack_effect];
      (split; [lia|done]).
  - destruct stack as [|rhsOp [|lhsOp stack]]; try discriminate Heval.
    unfold eval_TwoArgFunction in Heval.
    destruct (to_value heap rhsOp) as [rhs|]; [|discriminate Heval].
    destruct (to_value heap lhsOp) as [lhs|]; [|discriminate Heval].
    destruct f; returned Heval; cbn [length stack_effect];
      (split; [lia|done]).
  - injection Heval as <- <-. cbn [stack_effect]. split; [lia|done].
Qed.

Lemma eval_loop_effect rpn stack heap stack' heap' :
  eval_loop rpn stack heap = (Returns stack', heap') ->
  Z.of_nat (length stack') =
    Z.of_nat (length stack) + foldr (fun t n => stack_effect t + n) 0 rpn.
Proof.
  revert stack heap. induction rpn as [|token rpn IH]; intros stack heap;
    cbn [eval_loop foldr].
  - intros [= <- <-]. lia.
  - destruct (eval_token token stack heap) as [[stack1 heap1]|e] eqn:Htoken;
      [|done].
    apply eval_token_effect in Htoken as [Hlen _]. intros ->%IH. lia.
Qed.

Lemma eval_loop_heap rpn stack heap :
  length (eval_loop rpn stack heap).2 = length heap
  /\ (Forall (fun t => t <> binop Assignment) rpn ->
      (eval_loop rpn stack heap).2 = heap).
Proof.
  revert stack heap. induction rpn as [|token rpn IH]; intros stack heap;
    cbn [eval_loop]; [done|].
  destruct (eval_token token stack heap) as [[stack1 heap1]|e] eqn:Htoken;
    [|done].
  apply eval_token_effect in Htoken as (_ & Hlen & Hsame).
  destruct (IH stack1 heap1) as [IHlen IHsame]. split.
  - by rewrite IHlen.
  - intros [Htoken Hrpn]%Forall_cons. rewrite IHsame by done. by apply Hsame.
Qed.

(** X17. When [evaluate] returns a result, the sequence has exactly one
    operand more than it has binary operators and two-argument functions:
    each operand adds one to the stack, each of those takes one off, and
    unary operators, one-argument functions and other tokens keep its
    height. *)
Theorem evaluate_balance rpn heap (result : Operand real) heap' :
  evaluate rpn heap = (Returns result, heap') ->
  foldr (fun t n => stack_effect t + n) 0 rpn = 1.
Proof.
  unfold evaluate.
  destruct (eval_loop rpn [] heap) as [[stack|e] heap1] eqn:Hloop; [|done].
  apply eval_loop_effect in Hloop.
  destruct stack as [|r [|r' stack]]; cbn; [done| |done].
  intros _. cbn [length] in Hloop. lia.
Qed.

(** X18. [evaluate] never adds or removes a variable slot, and it writes a
    slot only through an assignment: on a sequence without [Assignment] the
    heap is left as it was, whether the evaluation returns or throws. *)
Theorem evaluate_heap rpn heap :
  length (evaluate rpn heap).2 = length heap
  /\ (Forall (fun t => t <> binop Assignment) rpn ->
      (evaluate rpn heap).2 = heap).
Proof.
  unfold evaluate.
  pose proof (eval_loop_heap rpn [] heap) as Hheap.
  by destruct (eval_loop rpn [] heap).
Qed.

Lemma eval_loop_operands (operands : list (Operand real)) stack heap :
  eval_loop (TOperand <$> operands) stack heap =
    (Returns (rev operands ++ stack), heap).
Proof.
  revert stack. induction operands as [|o operands IH]; intros stack;
    [done|].
  cbn. rewrite IH. by rewrite <- app_assoc.
Qed.

(** X19. A sequence of operands alone: the empty one throws "Error:
    insufficient operands", two or more throw "Error: too many operands",
    and a single operand is returned as it is, not dereferenced: a variable
    comes back as the variable, even with an empty slot. *)
Theorem evaluate_operands (operands : list (Operand real)) heap :
  evaluate (TOperand <$> operands) heap =
    (match operands with
     | [] => Throws (runtime_error "Error: insufficient operands")
     | [operand] => Returns operand
     | _ => Throws (runtime_error "Error: too many operands")
     end, heap).
Proof.
  unfold evaluate. rewrite eval_loop_operands, app_nil_r.
  destruct operands as [|a [|b operands]]; try done.
  cbn [rev]. rewrite <- !app_assoc. cbn.
  by destruct (rev operands) as [|? [|? ?]].
Qed.

End EvaluatorStack.

(** ** The evaluator: kinds of values *)

Section EvaluatorKinds.

Context {real : Type} {host : RealHost real}.

Implicit Types (heap : @Heap real) (stack : list (Operand real)).
Implicit Types (lhsOp rhsOp : Operand real) (lhs rhs : @Value real).

(** X20. [+], [-] and [*] on the values of their operands: two integers
    give the integer result; as soon as one side is a real both sides are
    converted to reals, a boolean included (to the real of the boolean), and
    the result is a real; a boolean with an integer or with a boolean is not
    converted and ends in the [std::bad_variant_access] of [std::get]. *)
Theorem arithmetic_promotion (b : BinaryOperator) (fi : Z -> Z -> Z)
    (fr : real -> real -> real) heap stack lhsOp rhsOp lhs rhs :
  arithmetic_functions b = Some (fi, fr) ->
  to_value heap lhsOp = Returns lhs ->
  to_value heap rhsOp = Returns rhs ->
  eval_token (binop b) (rhsOp :: lhsOp :: stack) heap =
    if holds_Real lhs || holds_Real rhs
    then Returns (Const (Real (fr (to_real lhs) (to_real rhs))) :: stack, heap)
    else match lhs, rhs with
         | VInteger x, VInteger y =>
             Returns (Const (Integer (fi x y)) :: stack, heap)
         | _, _ => Throws bad_variant_access
         end.
Proof.
  intros Hb Hl Hr. cbn [eval_token]. unfold eval_BinaryOperator.
  rewrite Hl, Hr.
  destruct b; try discriminate Hb; injection Hb as <- <-;
    destruct lhs, rhs; reflexivity.
Qed.

Lemma Value_eq_spec lhs rhs :
  holds_Real lhs = false -> holds_Real rhs = false ->
  Value_eq lhs rhs = negb (Value_ne lhs rhs)
  /\ (Value_eq lhs rhs = true <-> lhs = rhs).
Proof.
  intros Hl Hr.
  destruct lhs as [x| |x], rhs as [y| |y]; try discriminate; cbn;
    rewrite ?negb_involutive; (split; [done|]).
  - rewrite Z.eqb_eq. split; congruence.
  - split; discriminate.
  - split; discriminate.
  - rewrite Bool.eqb_true_iff. split; congruence.
Qed.

(** X21. [==] and [!=] never throw on operands that have a value.  Between
    integers and booleans they compare by value and kind: [==] gives true
    exactly when the two values are the same value of the same kind (an
    integer never equals a boolean) and [!=] gives the opposite.  With a
    real on either side both values are converted to reals and compared by
    the real [==] and [!=]. *)
Theorem equality_evaluation heap stack lhsOp rhsOp lhs rhs :
  to_value heap lhsOp = Returns lhs ->
  to_value heap rhsOp = Returns rhs ->
  exists eq ne : bool,
    eval_token (binop Equality) (rhsOp :: lhsOp :: stack) heap =
      Returns (Const (Boolean eq) :: stack, heap)
    /\ eval_token (binop Inequality) (rhsOp :: lhsOp :: stack) heap =
         Returns (Const (Boolean ne) :: stack, heap)
    /\ (if holds_Real lhs || holds_Real rhs
        then eq = real_eqb (to_real lhs) (to_real rhs)
             /\ ne = real_neb (to_real lhs) (to_real rhs)
        else ne = negb eq /\ (eq = true <-> lhs = rhs)).
Proof.
  intros Hl Hr. cbn [eval_token]. unfold eval_BinaryOperator.
  rewrite Hl, Hr. cbn. unfold promote.
  destruct (holds_Real lhs || holds_Real rhs) eqn:Hreal.
  - by eexists _, _.
  - apply orb_false_iff in Hreal as [Hlr Hrr].
    destruct (Value_eq_spec lhs rhs Hlr Hrr) as [Hne Heq].
    exists (Value_eq lhs rhs), (Value_ne lhs rhs).
    repeat split; try apply Heq.
    by rewrite Hne, negb_involutive.
Qed.

(** X22. An assignment whose target is not a variable ([5 = 3], [pi = 3])
    throws "Error: assignment to a non-variable." once its right operand has
    a value, and changes nothing. *)
Theorem assignment_to_constant heap (c : Constant real) rhsOp rhs :
  to_value heap rhsOp = Returns rhs ->
  evaluate [TOperand (Const c); TOperand rhsOp; binop Assignment] heap =
    (Throws (runtime_error "Error: assignment to a non-variable."), heap).
Proof.
  intros Hr. unfold evaluate. cbn. unfold eval_BinaryOperator.
  rewrite Hr. cbn. by destruct (promote (value_of c) rhs).
Qed.

End EvaluatorKinds.

(** ** The stages together: an integer literal *)

Section LiteralPipeline.

Context {real : Type} {host : RealHost real}.

Lemma string_of_list_ascii_length (l : list ascii) :
  String.length (string_of_list_ascii l) = length l.
Proof. induction l as [|c l IH]; cbn; [done|by rewrite IH]. Qed.

(** X23. A decimal integer literal alone, a non-empty string of digits, goes
    through the three stages to the integer the digits construct, leaving
    the tokenizer and the heap as they were. *)
Theorem integer_literal_value (self : @Tokenizer real) (heap : @Heap real)
    (digits : list ascii) :
  digits <> [] ->
  Forall (fun c => isdigit c = true) digits ->
  run self heap (string_of_list_ascii digits) =
    Some (Returns (Const (Integer (Integer_of_digits digits))), self, heap).
Proof.
  intros Hne Hdigits.
  destruct digits as [|d digits]; [done|].
  pose proof Hdigits as [Hd Hrest]%Forall_cons.
  destruct (isdigit_not_other d Hd) as (Hspace & _ & _).
  assert (Hstep :
    tokenize_step (tokenize_start self heap
                     (string_of_list_ascii (d :: digits))) =
      emit (tokenize_start self heap (string_of_list_ascii (d :: digits)))
        (0 + length (d :: digits)) []
        (const (Integer (Integer_of_digits (d :: digits))))).
  { unfold tokenize_step. cbn [remaining tokenize_start].
    rewrite list_ascii_of_string_of_list_ascii.
    cbn [span]. rewrite Hspace, Hd.
    assert (Hbinary :
      match digits with
      | b :: bits =>
          if Ascii.eqb d "0" && (Ascii.eqb b "b" || Ascii.eqb b "B")
          then Some bits else None
      | [] => None
      end = None).
    { destruct digits as [|d' digits]; [done|].
      apply Forall_cons in Hrest as [Hd' _].
      destruct (isdigit_not_other d' Hd') as (_ & -> & ->).
      by rewrite andb_false_r. }
    rewrite Hbinary. unfold _get_number.
    by rewrite (span_end isdigit (d :: digits) Hdigits). }
  unfold run, tokenize.
  rewrite string_of_list_ascii_length. cbn [length tokenize_loop].
  rewrite Hstep. unfold emit. cbn [tokenize_loop].
  unfold tokenize_step at 1. cbn [remaining span].
  reflexivity.
Qed.

End LiteralPipeline.

(** ** The tokenizer: a second reading *)

Section TokenizerAgain.

Context {real : Type} {host : RealHost real}.

Implicit Types (st : @LexState real) (self : @Tokenizer real).
Implicit Types (heap : @Heap real) (cs rest : list ascii).

(** An identifier read on a tokenizer that already has what the first
    reading registered resolves to the same token and registers nothing. *)
Lemma _get_identifier_again self heap self2 heap2 (c : ascii) cs
    (token : Token real) (consumed : nat) rest self1 heap1 :
  _get_identifier self heap (c :: cs) = (token, consumed, rest, self1, heap1) ->
  keywords_m self2 = keywords_m self ->
  variables_m self1 ⊆ variables_m self2 ->
  _get_identifier self2 heap2 (c :: cs) = (token, consumed, rest, self2, heap2).
Proof.
  unfold _get_identifier. intros H Hkeys Hvars.
  destruct (span isalnum cs) as [more rest0]. rewrite Hkeys.
  destruct (keywords_m self !! _) as [t|]; [by injection H as <- <- <- _ _|].
  destruct (variables_m self !! _) as [t|] eqn:Hvar.
  - injection H as <- <- <- <- <-.
    by rewrite (lookup_weaken _ _ _ _ Hvar Hvars).
  - injection H as <- <- <- <- <-. cbn [variables_m] in Hvars.
    assert (Hnew : variables_m self2 !! string_of_list_ascii (c :: more)
                   = Some (var (length heap))).
    { eapply lookup_weaken; [|exact Hvars]. apply lookup_insert_eq. }
    by rewrite Hnew.
Qed.

Lemma tokenize_step_again st st1 self2 heap2 :
  tokenize_step st = Continue st1 ->
  keywords_m self2 = keywords_m (self st) ->
  variables_m (self st1) ⊆ variables_m self2 ->
  tokenize_step (on_tokenizer st self2 heap2) =
    Continue (on_tokenizer st1 self2 heap2).
Proof.
  intros H Hkeys Hvars.
  unfold tokenize_step, emit, on_tokenizer in *.
  cbn [currentChar remaining prev tokenizedExpression self heap] in *.
  repeat (case_match; try discriminate H; simplify_eq);
    cbn [currentChar remaining prev tokenizedExpression self heap] in *;
    try reflexivity;
    repeat match goal with
      | H1 : _get_identifier (self st) _ _ = _,
        H2 : _get_identifier self2 _ _ = _ |- _ =>
          rewrite (_get_identifier_again _ _ _ _ _ _ _ _ _ _ _ H1 Hkeys Hvars)
            in H2;
          simplify_eq
      end;
    try congruence.
  all: cbn [classify_prev]; repeat case_match; congruence.
Qed.

Lemma tokenize_step_break st self2 heap2 :
  tokenize_step st = Break ->
  tokenize_step (on_tokenizer st self2 heap2) = Break.
Proof.
  unfold tokenize_step, on_tokenizer, emit. cbn [remaining].
  intros H. repeat (case_match; try discriminate H; simplify_eq); done.
Qed.

Lemma tokenize_loop_again (fuel : nat) st (tokens : TokenList real)
    self' heap' :
  tokenize_loop fuel st = Some (Returns tokens, self', heap') ->
  tokenize_loop fuel (on_tokenizer st self' heap') =
    Some (Returns tokens, self', heap').
Proof.
  revert st. induction fuel as [|fuel IH]; intros st; [done|].
  cbn [tokenize_loop].
  destruct (tokenize_step st) as [|st1|e] eqn:Hstep; [| |done].
  - intros [= <- <- <-]. by rewrite (tokenize_step_break _ _ _ Hstep).
  - intros Hloop.
    assert (Hgrows : keywords_m self' = keywords_m (self st1)
                     /\ variables_m (self st1) ⊆ variables_m self').
    { apply (tokenize_loop_keeps
               (fun s _ => keywords_m s = keywords_m (self st1)
                           /\ variables_m (self st1) ⊆ variables_m s))
        in Hloop; [done| |done].
      intros sta stb Hab [Hk Hv].
      destruct (tokenize_step_registers _ _ Hab)
        as [[-> _]|(ident & Hfree & Hk' & Hv' & _)]; [done|].
      rewrite Hk', Hv'. split; [done|].
      etrans; [exact Hv|]. by apply insert_subseteq. }
    destruct Hgrows as [Hkeys Hvars].
    rewrite (tokenize_step_again st st1 self' heap' Hstep); [by apply IH| |done].
    rewrite Hkeys.
    by destruct (tokenize_step_registers _ _ Hstep)
      as [[-> _]|(_ & _ & -> & _)].
Qed.

(** X24. Reading an accepted expression again on the tokenizer the first
    reading left gives the same tokens, every variable the same handle, and
    registers nothing: the tokenizer and the heap stay as the first reading
    left them. *)
Theorem tokenize_again self heap (expression : string)
    (tokens : TokenList real) self' heap' :
  tokenize self heap expression = Some (Returns tokens, self', heap') ->
  tokenize self' heap' expression = Some (Returns tokens, self', heap').
Proof. unfold tokenize. apply tokenize_loop_again. Qed.

End TokenizerAgain.

(** ** The tokenizer: real literals *)

Section TokenizerReals.

Context {real : Type} {host : RealHost real}.

Implicit Types (st : @LexState real) (digits fraction rest : list ascii).

(** X25. Digits, a point and at least one digit make one [Real] token,
    constructed from exactly that text; the literal takes all the digits
    after the point and stops at the first other character, a second point
    included. *)
Theorem real_literal st (spaces : list ascii) digits fraction rest :
  Forall (fun c => isspace c = true) spaces ->
  digits <> [] ->
  Forall (fun c => isdigit c = true) digits ->
  fraction <> [] ->
  Forall (fun c => isdigit c = true) fraction ->
  from_option isdigit false (head rest) = false ->
  remaining st = spaces ++ digits ++ "."%char :: fraction ++ rest ->
  tokenize_step st =
    emit st
      (currentChar st + length spaces
       + (length digits + 1 + length fraction))
      rest
      (const (Real (real_of_string
                      (string_of_list_ascii
                         (digits ++ "."%char :: fraction))))).
Proof.
  intros Hspaces Hne Hdigits Hnef Hfraction Hrest Hremaining.
  unfold tokenize_step. rewrite Hremaining.
  destruct digits as [|d digits]; [done|].
  pose proof Hdigits as [Hd Hdigits']%Forall_cons.
  destruct (isdigit_not_other d Hd) as (Hspace & _ & _).
  rewrite <- app_comm_cons, (span_stop isspace spaces d _ Hspaces Hspace), Hd.
  assert (Hbinary :
    match digits ++ "."%char :: fraction ++ rest with
    | b :: bits =>
        if Ascii.eqb d "0" && (Ascii.eqb b "b" || Ascii.eqb b "B")
        then Some bits else None
    | [] => None
    end = None).
  { destruct digits as [|d' digits]; cbn.
    - by rewrite andb_false_r.
    - apply Forall_cons in Hdigits' as [Hd' _].
      destruct (isdigit_not_other d' Hd') as (_ & -> & ->).
      by rewrite andb_false_r. }
  rewrite Hbinary, app_comm_cons. unfold _get_number.
  rewrite (span_stop isdigit (d :: digits) "." _ Hdigits eq_refl).
  cbn [negb Ascii.eqb]. change (Ascii.eqb "." ".") with true. cbn [negb].
  destruct fraction as [|f fraction]; [done|].
  pose proof Hfraction as [Hf _]%Forall_cons.
  rewrite <- app_comm_cons, Hf, app_comm_cons.
  by rewrite (span_exact isdigit (f :: fraction) rest Hfraction Hrest).
Qed.

End TokenizerReals.

(** ** The further statements at concrete inputs *)

Lemma tokenize_blank_witness :
  Forall (fun c => isspace c = true) (list_ascii_of_string "   ")
  /\ tokenize (real := R) Tokenizer_new [] "   " =
       Some (Returns [], Tokenizer_new, []).
Proof.
  assert (Hblank : Forall (fun c => isspace c = true)
                     (list_ascii_of_string "   "))
    by (repeat constructor).
  split; [exact Hblank|].
  exact (tokenize_blank Tokenizer_new [] "   " Hblank).
Defined.

Lemma unknown_character_witness :
  remaining (tokenize_start (real := R) Tokenizer_new [] " #1") =
    [" "%char] ++ "#"%char :: ["1"%char]
  /\ tokenize (real := R) Tokenizer_new [] " #1" =
       Some (Throws (XBadCharacter 1), Tokenizer_new, []).
Proof.
  split; [reflexivity|].
  refine (unknown_character
            (tokenize_start (real := R) Tokenizer_new [] " #1") 3
            [" "%char] "#"%char ["1"%char] _ _ _ _).
  - repeat constructor.
  - reflexivity.
  - reflexivity.
  - reflexivity.
Defined.

Lemma tokenize_error_location_witness :
  tokenize (real := R) Tokenizer_new [] "1 # 2" =
    Some (Throws (XBadCharacter 2), Tokenizer_new, [])
  /\ exists loc : nat,
       (XBadCharacter 2 = XBadCharacter loc
        \/ exists what, XBadCharacter 2 = XTokenizer loc what)
       /\ (loc <= 5)%nat.
Proof.
  assert (H : tokenize (real := R) Tokenizer_new [] "1 # 2" =
                Some (Throws (XBadCharacter 2), Tokenizer_new, []))
    by reflexivity.
  split; [exact H|].
  exact (tokenize_error_location _ _ _ _ _ _ H).
Defined.

Lemma tokenize_extends_witness :
  let self' : @Tokenizer R :=
    {| keywords_m := keywords_m Tokenizer_new;
       variables_m := {["x" := var 0%nat]} |} in
  tokenize (real := R) Tokenizer_new [] "x" =
    Some (Returns [var 0%nat], self', [None])
  /\ keywords_m self' = keywords_m (real := R) Tokenizer_new
  /\ variables_m (real := R) Tokenizer_new ⊆ variables_m self'
  /\ exists n : nat, [None] = [] ++ replicate n (@None (Constant R)).
Proof.
  intros self'.
  assert (H : tokenize (real := R) Tokenizer_new [] "x" =
                Some (Returns [var 0%nat], self', [None]))
    by reflexivity.
  split; [exact H|].
  exact (tokenize_extends _ _ _ _ _ _ H).
Defined.

Lemma tokenize_registry_ok_witness :
  let self' : @Tokenizer R :=
    {| keywords_m := keywords_m Tokenizer_new;
       variables_m := {["x" := var 0%nat]} |} in
  registry_ok (real := R) Tokenizer_new []
  /\ tokenize (real := R) Tokenizer_new [] "x" =
       Some (Returns [var 0%nat], self', [None])
  /\ registry_ok self' [None].
Proof.
  intros self'.
  assert (Hok : registry_ok (real := R) Tokenizer_new []).
  { intros name token Hname. cbn in Hname.
    rewrite lookup_empty in Hname. discriminate Hname. }
  assert (H : tokenize (real := R) Tokenizer_new [] "x" =
                Some (Returns [var 0%nat], self', [None]))
    by reflexivity.
  split; [exact Hok|]. split; [exact H|].
  exact (tokenize_registry_ok _ _ _ _ _ _ Hok H).
Defined.

Lemma binary_literal_witness :
  let st := tokenize_start (real := R) Tokenizer_new [] " 0b1011+" in
  remaining st =
    [" "%char] ++ "0"%char :: "b"%char
      :: ["1"%char; "0"%char; "1"%char; "1"%char] ++ ["+"%char]
  /\ exists value : Z,
       tokenize_step st =
         Continue {| currentChar := 7; remaining := ["+"%char];
                     prev := PrevCategory.Operand;
                     tokenizedExpression := [const (Integer value)];
                     self := Tokenizer_new; heap := [] |}
       /\ 0 <= value < 16
       /\ forall i : nat,
            Z.testbit value (Z.of_nat i) =
              from_option (fun c => Ascii.eqb c "1") false
                (["1"%char; "1"%char; "0"%char; "1"%char] !! i).
Proof.
  intros st. split; [reflexivity|].
  refine (binary_literal st [" "%char] "b"%char
            ["1"%char; "0"%char; "1"%char; "1"%char] ["+"%char] _ _ _ _ _ _).
  - repeat constructor.
  - left. reflexivity.
  - discriminate.
  - repeat constructor.
  - reflexivity.
  - reflexivity.
Defined.

Lemma binary_literal_without_digits_witness :
  remaining (tokenize_start (real := R) Tokenizer_new [] "0b2") =
    [] ++ "0"%char :: "b"%char :: ["2"%char]
  /\ tokenize (real := R) Tokenizer_new [] "0b2" =
       Some (Throws (XTokenizer 2 "Tokenizer::Bad character in expression."),
             Tokenizer_new, []).
Proof.
  split; [reflexivity|].
  refine (binary_literal_without_digits
            (tokenize_start (real := R) Tokenizer_new [] "0b2") 3
            [] "b"%char ["2"%char] _ _ _ _).
  - constructor.
  - left. reflexivity.
  - reflexivity.
  - reflexivity.
Defined.

Lemma exclamation_mark_witness :
  let after_factorial :=
    {| currentChar := 2;
       remaining := ["!"%char];
       prev := PrevCategory.PostfixOp;
       tokenizedExpression := [TOperand (real := R) (Const (Integer 3));
                               postfix Factorial];
       self := Tokenizer_new;
       heap := [] |} in
  let after_operator :=
    {| currentChar := 2;
       remaining := [" "%char; "!"%char];
       prev := PrevCategory.Other;
       tokenizedExpression := [TOperand (real := R) (Const (Integer 2));
                               binop Multiplication];
       self := Tokenizer_new;
       heap := [] |} in
  (reaches (tokenize_start Tokenizer_new [] "3!!") after_factorial
   /\ remaining after_factorial = [] ++ "!"%char :: []
   /\ tokenize_step after_factorial =
        emit after_factorial 3 [] (postfix Factorial))
  /\ (reaches (tokenize_start Tokenizer_new [] "2* !") after_operator
      /\ remaining after_operator = [" "%char] ++ "!"%char :: []
      /\ tokenize_step after_operator =
           Raise (XTokenizer 3 "Factorial must follow Expression")).
Proof.
  intros after_factorial after_operator.
  assert (Hfactorial :
            reaches (tokenize_start Tokenizer_new [] "3!!") after_factorial).
  { eapply reaches_turn; [eapply reaches_turn; [apply reaches_start|]|];
      reflexivity. }
  assert (Hoperator :
            reaches (tokenize_start Tokenizer_new [] "2* !") after_operator).
  { eapply reaches_turn; [eapply reaches_turn; [apply reaches_start|]|];
      reflexivity. }
  split.
  - split; [exact Hfactorial|]. split; [reflexivity|].
    exact (proj2 (exclamation_mark Tokenizer_new [] "3!!" after_factorial
                    [] [] Hfactorial (List.Forall_nil _) eq_refl) eq_refl).
  - split; [exact Hoperator|]. split; [reflexivity|].
    refine (proj2 (exclamation_mark Tokenizer_new [] "2* !" after_operator
                     [" "%char] [] Hoperator _ eq_refl) eq_refl).
    repeat constructor.
Defined.

Lemma function_then_parenthesis_witness :
  tokenize (real := R) Tokenizer_new [] "sin (1)" =
    Some (Returns [fn1 Sin; TPseudo LeftParenthesis; const (Integer 1);
                   TPseudo RightParenthesis], Tokenizer_new, [])
  /\ is_Function (real := R) (fn1 Sin) = true
  /\ [fn1 Sin; TPseudo LeftParenthesis; const (Integer 1);
      TPseudo RightParenthesis] !! 1%nat =
       Some (TPseudo (real := R) LeftParenthesis).
Proof.
  assert (H : tokenize (real := R) Tokenizer_new [] "sin (1)" =
                Some (Returns [fn1 Sin; TPseudo LeftParenthesis;
                               const (Integer 1); TPseudo RightParenthesis],
                      Tokenizer_new, []))
    by reflexivity.
  split; [exact H|]. split; [reflexivity|].
  exact (function_then_parenthesis _ _ _ _ _ _ H 0%nat (fn1 Sin)
           eq_refl eq_refl).
Defined.

Lemma function_without_parenthesis_witness :
  remaining (tokenize_start (real := R) Tokenizer_new [] "sin 1") =
    [] ++ "s"%char :: ["i"%char; "n"%char] ++ [" "%char] ++ ["1"%char]
  /\ keywords_m (real := R) Tokenizer_new !! "sin" = Some (fn1 Sin)
  /\ tokenize (real := R) Tokenizer_new [] "sin 1" =
       Some (Throws (XTokenizer 4 "Function not followed by ("),
             Tokenizer_new, []).
Proof.
  split; [reflexivity|]. split; [reflexivity|].
  refine (function_without_parenthesis
            (tokenize_start (real := R) Tokenizer_new [] "sin 1") 5
            [] ["i"%char; "n"%char] [" "%char] ["1"%char] "s"%char
            (fn1 Sin) _ _ _ _ _ _ _ _ _).
  - constructor.
  - reflexivity.
  - repeat constructor.
  - reflexivity.
  - repeat constructor.
  - reflexivity.
  - reflexivity.
  - reflexivity.
  - reflexivity.
Defined.

Lemma parse_rearranges_witness :
  parse (real := R)
    [const (Integer 1); binop Addition; TPseudo LeftParenthesis;
     const (Integer 2); TPseudo RightParenthesis] =
    Returns [const (Integer 1); const (Integer 2); binop Addition]
  /\ [const (Integer 1); const (Integer 2); binop Addition]
     ≡ₚ filter (fun t : Token R => rpn_token t = true)
          [const (Integer 1); binop Addition; TPseudo LeftParenthesis;
           const (Integer 2); TPseudo RightParenthesis].
Proof.
  assert (H : parse (real := R)
                [const (Integer 1); binop Addition; TPseudo LeftParenthesis;
                 const (Integer 2); TPseudo RightParenthesis] =
                Returns [const (Integer 1); const (Integer 2);
                         binop Addition])
    by reflexivity.
  split; [exact H|].
  exact (parse_rearranges _ _ H).
Defined.

Lemma parse_keeps_operand_order_witness :
  parse (real := R)
    [const (Integer 1); binop Addition; const (Integer 2);
     binop Multiplication; const (Integer 3)] =
    Returns [const (Integer 1); const (Integer 2); const (Integer 3);
             binop Multiplication; binop Addition]
  /\ filter (fun t : Token R => is_Operand t = true)
       [const (Integer 1); const (Integer 2); const (Integer 3);
        binop Multiplication; binop Addition] =
     filter (fun t : Token R => is_Operand t = true)
       [const (Integer 1); binop Addition; const (Integer 2);
        binop Multiplication; const (Integer 3)].
Proof.
  assert (H : parse (real := R)
                [const (Integer 1); binop Addition; const (Integer 2);
                 binop Multiplication; const (Integer 3)] =
                Returns [const (Integer 1); const (Integer 2);
                         const (Integer 3); binop Multiplication;
                         binop Addition])
    by reflexivity.
  split; [exact H|].
  exact (parse_keeps_operand_order _ _ H).
Defined.

Lemma prefix_operator_pops_witness :
  is_prefix Negation = true
  /\ parse (real := R) [unop Negation; unop Negation; const (Integer 3)] =
       Returns [unop Negation; const (Integer 3); unop Negation]
  /\ evaluate (real := R)
       [unop Negation; const (Integer 3); unop Negation] [] =
       (Throws (runtime_error "Error: insufficient operands"), []).
Proof.
  split; [reflexivity|].
  exact (proj1 (prefix_operator_pops (real := R) Negation Negation
                  (Const (Integer 3)) (Const (Integer 3)) []
                  eq_refl eq_refl)).
Defined.

Lemma evaluate_balance_witness :
  evaluate (real := R)
    [const (Integer 1); const (Integer 2); binop Addition] [] =
    (Returns (Const (Integer 3)), [])
  /\ foldr (fun (t : Token R) n => stack_effect t + n) 0
       [const (Integer 1); const (Integer 2); binop Addition] = 1.
Proof.
  assert (H : evaluate (real := R)
                [const (Integer 1); const (Integer 2); binop Addition] [] =
                (Returns (Const (Integer 3)), []))
    by reflexivity.
  split; [exact H|].
  exact (evaluate_balance (real := R) _ [] _ [] H).
Defined.

Lemma evaluate_heap_witness :
  Forall (fun t : Token R => t <> binop Assignment)
    [var 0%nat; const (Integer 2); binop Addition]
  /\ (evaluate (real := R) [var 0%nat; const (Integer 2); binop Addition]
        [Some (Integer 5)]).2 = [Some (Integer 5)].
Proof.
  assert (H : Forall (fun t : Token R => t <> binop Assignment)
                [var 0%nat; const (Integer 2); binop Addition])
    by (repeat constructor; discriminate).
  split; [exact H|].
  exact (proj2 (evaluate_heap (real := R) _ _) H).
Defined.

Lemma arithmetic_promotion_witness :
  arithmetic_functions (real := R) Addition = Some (Z.add, Rplus)
  /\ to_value (real := R) [] (Const (Integer 1)) = Returns (VInteger 1)
  /\ to_value (real := R) [] (Const (Boolean true)) = Returns (VBoolean true)
  /\ eval_token (real := R) (binop Addition)
       [Const (Boolean true); Const (Integer 1)] [] =
       Throws bad_variant_access.
Proof.
  split; [reflexivity|]. split; [reflexivity|]. split; [reflexivity|].
  exact (arithmetic_promotion (real := R) Addition Z.add Rplus [] []
           (Const (Integer 1)) (Const (Boolean true))
           (VInteger 1) (VBoolean true) eq_refl eq_refl eq_refl).
Defined.

Lemma equality_evaluation_witness :
  to_value (real := R) [] (Const (Integer 1)) = Returns (VInteger 1)
  /\ to_value (real := R) [] (Const (Boolean true)) = Returns (VBoolean true)
  /\ exists eq ne : bool,
       eval_token (real := R) (binop Equality)
         [Const (Boolean true); Const (Integer 1)] [] =
         Returns ([Const (Boolean eq)], [])
       /\ eval_token (real := R) (binop Inequality)
            [Const (Boolean true); Const (Integer 1)] [] =
            Returns ([Const (Boolean ne)], [])
       /\ ne = negb eq
       /\ (eq = true <-> @VInteger R 1 = VBoolean true).
Proof.
  split; [reflexivity|]. split; [reflexivity|].
  exact (equality_evaluation (real := R) [] [] (Const (Integer 1))
           (Const (Boolean true)) (VInteger 1) (VBoolean true)
           eq_refl eq_refl).
Defined.

Lemma assignment_to_constant_witness :
  to_value (real := R) [] (Const (Integer 3)) = Returns (VInteger 3)
  /\ evaluate (real := R)
       [const (Integer 5); const (Integer 3); binop Assignment] [] =
       (Throws (runtime_error "Error: assignment to a non-variable."), []).
Proof.
  split; [reflexivity|].
  exact (assignment_to_constant (real := R) [] (Integer 5)
           (Const (Integer 3)) (VInteger 3) eq_refl).
Defined.

Lemma integer_literal_value_witness :
  Forall (fun c => isdigit c = true) ["4"%char; "2"%char]
  /\ run (real := R) Tokenizer_new [] "42" =
       Some (Returns (Const (Integer 42)), Tokenizer_new, []).
Proof.
  assert (H : Forall (fun c => isdigit c = true) ["4"%char; "2"%char])
    by (repeat constructor).
  split; [exact H|].
  refine (integer_literal_value (real := R) Tokenizer_new []
            ["4"%char; "2"%char] _ H).
  discriminate.
Defined.

Lemma tokenize_again_witness :
  let self' : @Tokenizer R :=
    {| keywords_m := keywords_m Tokenizer_new;
       variables_m := {["x" := var 0%nat]} |} in
  tokenize (real := R) Tokenizer_new [] "x + x" =
    Some (Returns [var 0%nat; binop Addition; var 0%nat], self', [None])
  /\ tokenize self' [None] "x + x" =
       Some (Returns [var 0%nat; binop Addition; var 0%nat], self', [None]).
Proof.
  intros self'.
  assert (H : tokenize (real := R) Tokenizer_new [] "x + x" =
                Some (Returns [var 0%nat; binop Addition; var 0%nat],
                      self', [None]))
    by reflexivity.
  split; [exact H|].
  exact (tokenize_again _ _ _ _ _ _ H).
Defined.

Lemma real_literal_witness :
  let st := tokenize_start (real := R) Tokenizer_new [] " 1.5+" in
  remaining st =
    [" "%char] ++ ["1"%char] ++ "."%char :: ["5"%char] ++ ["+"%char]
  /\ tokenize_step st =
       emit st 4 ["+"%char] (const (Real (real_of_string "1.5"))).
Proof.
  intros st. split; [reflexivity|].
  refine (real_literal st [" "%char] ["1"%char] ["5"%char] ["+"%char]
            _ _ _ _ _ _ _).
  - repeat constructor.
  - discriminate.
  - repeat constructor.
  - discriminate.
  - repeat constructor.
  - reflexivity.
  - reflexivity.
Defined.
